(** * changeLogBuilder.js: the manifest merge engine

    A shallow embedding of the merge pipeline of [changeLogBuilder.js]
    (reading configuration, folding the parsed [package.xml] files into
    the package template, sorting, and the CSV projection), followed by
    the properties of the design document that concern it.

    Conventions.
    - A JavaScript string is a [string]; its characters stand for the
      code units that [<], [>] and the default [sort] compare.
    - A JavaScript array is a [list]; an object with optional properties
      is a record whose optional fields are [option]s ([None] is a
      missing property, so that reading through it raises a TypeError).
    - Effects (the console, [log.txt], the global [config], the files on
      disk), exceptions and [process.exit] are threaded through the
      monad [M] below.
    - What the script takes from outside (the JSON and XML libraries,
      the calls of [fs] that depend on folders, the order in which the
      engine's sort leaves groups of equal name) is a parameter. *)

From Stdlib Require Import ZArith Ascii OrdersEx.
From stdpp Require Import base list strings gmap sorting pretty.

#[local] Set Warnings "-clear-no-such-hyp".

(** ** JavaScript values kept by the program *)

(** The values [JSON.parse] can return. *)
#[local] Unset Elimination Schemes.
Inductive json : Type :=
  | JNull
  | JBool (b : bool)
  | JNum (n : Z)
  | JStr (s : string)
  | JArr (l : list json)
  | JObj (l : list (string * json)).
#[local] Set Elimination Schemes.

(** [undefined] is [None]. *)
Definition jsValue : Type := option json.

(** Own enumerable properties copied by an object spread [{...v}]:
    nothing for [undefined], [null], booleans and numbers; the entries of
    an object (a later duplicate key of the parsed text overrides an
    earlier one); the indices of an array or of a string. *)
Definition spread (v : jsValue) : gmap string json :=
  match v with
  | Some (JObj l) => list_to_map (reverse l)
  | Some (JArr l) => list_to_map (imap (λ i x, (pretty i, x)) l)
  | Some (JStr s) =>
      list_to_map (imap (λ i c, (pretty i, JStr (String c EmptyString)))
                        (String.list_ascii_of_string s))
  | _ => ∅
  end.

(** [{ ...a, ...b }]: the properties of [b] override those of [a]. *)
Definition spread_merge (a : gmap string json) (b : jsValue) : gmap string json :=
  spread b ∪ a.

(** ** The process state and the monad of the script *)

Record world : Type := World {
  console : list string;           (* lines printed by console.log *)
  logFile : list string;           (* chunks appended to log.txt *)
  config : gmap string json;       (* the global [config] variable *)
  disk : gmap string string        (* file name -> content *)
}.

Inductive completion (A : Type) : Type :=
  | Normal (a : A)                 (* the call returned [a] *)
  | Throw (e : string)             (* an exception propagates *)
  | Exit (code : Z).               (* process.exit(code) was called *)
Arguments Normal {A} a.
Arguments Throw {A} e.
Arguments Exit {A} code.

Definition M (A : Type) : Type := world → world * completion A.

Definition ret {A} (a : A) : M A := λ w, (w, Normal a).
Definition throw {A} (e : string) : M A := λ w, (w, Throw e).
Definition process_exit {A} (code : Z) : M A := λ w, (w, Exit code).

Definition bind {A B} (m : M A) (k : A → M B) : M B := λ w,
  match m w with
  | (w', Normal a) => k a w'
  | (w', Throw e) => (w', Throw e)
  | (w', Exit c) => (w', Exit c)
  end.

Notation "'let!' x ':=' m 'in' k" := (bind m (λ x, k))
  (at level 10, x name, m at level 100, k at level 200).
Notation "m '>>' k" := (bind m (λ _, k))
  (at level 100, k at level 200, right associativity).

(** [array.forEach] with a callback that reassigns a captured variable:
    a left fold in [M]. *)
Fixpoint forEachM {A B} (f : A → B → M A) (l : list B) (a : A) : M A :=
  match l with
  | [] => ret a
  | x :: l' => let! a' := f a x in forEachM f l' a'
  end.

(** Control characters and the double quote, which string literals
    cannot spell. *)
Definition ESC : string := String "027"%char EmptyString.
Definition CRLF : string := String "013"%char (String "010"%char EmptyString).
Definition DQUOTE : string := String "034"%char EmptyString.

Definition TypeError_undefined (prop : string) : string :=
  "TypeError: Cannot read properties of undefined (reading '" +:+ prop +:+ "')".

(** ** [log] (lines 495-514) *)

Definition colorCode (color : option string) : string :=
  match color with
  | Some c =>
      if String.eqb c "red" then ESC +:+ "[31m"
      else if String.eqb c "green" then ESC +:+ "[32m"
      else if String.eqb c "yellow" then ESC +:+ "[33m"
      else ""
  | None => ""
  end.

(** [printToScreen] defaults to [true] when it is not passed.  The append
    to [log.txt] is recorded in call order. *)
Definition log (logItem : string) (printToScreen : option bool)
    (color : option string) : M unit := λ w,
  let printToScreen := default true printToScreen in
  let console' :=
    if printToScreen
    then console w ++ [colorCode color +:+ "" +:+ logItem +:+ ESC +:+ "[0m"]
    else console w in
  (World console' (logFile w ++ [logItem +:+ CRLF]) (config w) (disk w), Normal ()).

(** ** Data model *)

(** One [<types>] element as xml2js hands it over (default options:
    every child element becomes an array).  A child that is absent is a
    missing property. *)
Record xmlType : Type := XmlType {
  xml_name : option (list string);
  xml_members : option (list string)
}.

Record xmlPackage : Type := XmlPackage {
  xml_types : option (list xmlType)
}.

Record xmlRoot : Type := XmlRoot {
  xml_Package : option xmlPackage
}.

(** What [readPackageXML] pushes for one folder: the parse result, which
    is [undefined] ([None]) when xml2js reported an error. *)
Definition parsedFile : Type := option xmlRoot.

(** A group of the merged package: [{ name, members }]. *)
Record typeEntry : Type := TypeEntry {
  name : string;
  members : list string
}.

(** The [Package] object of the accumulator: the attributes xml2js keeps
    under [$], the version, and the groups. *)
Record packageBody : Type := PackageBody {
  attrs : list (string * string);
  version : json;
  types : option (list typeEntry)
}.

Record packageObject : Type := PackageObject {
  Package : option packageBody
}.

Global Instance typeEntry_eq_dec : EqDecision typeEntry.
Proof. solve_decision. Defined.

(** [String(x)] and string concatenation on a [name] property: an array
    is joined with commas, a missing property prints as "undefined". *)
Definition JS_String (x : option (list string)) : string :=
  match x with
  | Some l => String.concat "," l
  | None => "undefined"
  end.

(** ** String order and [Array.prototype.sort] *)

(** [a < b] on strings: lexicographic on code units. *)
Definition js_lt (a b : string) : bool :=
  match String_as_OT.compare a b with Lt => true | _ => false end.

(** The comparison [sort()] uses when no comparator is passed. *)
Definition sortCompare (x y : string) : Z :=
  if js_lt x y then (-1)%Z else if js_lt y x then 1%Z else 0%Z.

Section array_sort.
Context {A : Type} (comparefn : A → A → Z).

Fixpoint sort_insert (x : A) (l : list A) : list A :=
  match l with
  | [] => [x]
  | y :: l' => if (comparefn x y <=? 0)%Z then x :: y :: l'
               else y :: sort_insert x l'
  end.

(** [array.sort(comparefn)], as a stable insertion sort.  For a
    comparator that is consistent on the array the language fixes the
    result (the stable sorted permutation), and this is it.  The default
    comparison of [sortValues] is consistent on every array of strings;
    the comparator of line 331 is not when two groups share a name, and
    [sortTypes] below sorts with it only when none do. *)
Definition array_sort (l : list A) : list A := foldr sort_insert [] l.
End array_sort.

(** ** [getUnique] (lines 441-451) *)

(** One pass of the loop: [uniqueArray.indexOf(x) === -1] is strict
    equality against every element, which on strings is equality of
    their contents. *)
Definition getUnique_step (uniqueArray : list string) (x : string) : list string :=
  if existsb (String.eqb x) uniqueArray then uniqueArray
  else uniqueArray ++ [x].

Definition getUnique (array : list string) : list string :=
  fold_left getUnique_step array [].

(** ** [appendTypesToPackage] (lines 411-434) *)

(** The [forEach] over the groups of the package: every group whose name
    equals [typeName] receives the de-duplicated concatenation, and
    [matchFound] records whether there was one. *)
Fixpoint appendTypes_forEach (typeName : string) (newMembers : list string)
    (tys : list typeEntry) (matchFound : bool) : list typeEntry * bool :=
  match tys with
  | [] => ([], matchFound)
  | thisType :: rest =>
      if String.eqb (name thisType) typeName then
        let '(rest', found) := appendTypes_forEach typeName newMembers rest true in
        (TypeEntry (name thisType) (getUnique (members thisType ++ newMembers)) :: rest',
         found)
      else
        let '(rest', found) := appendTypes_forEach typeName newMembers rest matchFound in
        (thisType :: rest', found)
  end.

Definition appendTypes (typeName : string) (newMembers : list string)
    (tys : list typeEntry) : list typeEntry :=
  let '(tys', matchFound) := appendTypes_forEach typeName newMembers tys false in
  if matchFound then tys'
  else tys' ++ [TypeEntry typeName (getUnique newMembers)].

Definition appendTypesToPackage (typeName : string) (newMembers : list string)
    (packageObj : packageObject) : M packageObject :=
  match Package packageObj with
  | None => throw (TypeError_undefined "hasOwnProperty")
  | Some body =>
      let tys := default [] (types body) in
      ret (PackageObject (Some
            (PackageBody (attrs body) (version body)
                         (Some (appendTypes typeName newMembers tys)))))
  end.

(** ** [mergeObjects] (lines 308-322) *)

(** The groups of a parsed file when it passes the guard
    [thisFile && thisFile.hasOwnProperty("Package") &&
     thisFile.Package.hasOwnProperty("types")]. *)
Definition file_types (thisFile : parsedFile) : option (list xmlType) :=
  root ← thisFile; pkg ← xml_Package root; xml_types pkg.

Definition mergeObjects_type (packageObj : packageObject)
    (thisType : xmlType) : M packageObject :=
  match xml_members thisType with
  | None => throw (TypeError_undefined "length")
  | Some ms =>
      log ("Writing " +:+ pretty (length ms) +:+ " members to "
             +:+ JS_String (xml_name thisType)) None None >>
      appendTypesToPackage (JS_String (xml_name thisType)) ms packageObj
  end.

Fixpoint mergeObjects_from (index : nat) (filesDataArray : list parsedFile)
    (packageObj : option packageObject) : M (option packageObject) :=
  match filesDataArray with
  | [] => ret packageObj
  | thisFile :: rest =>
      let packageObj := default (PackageObject None) packageObj in
      let! packageObj' :=
        match file_types thisFile with
        | Some tys => forEachM mergeObjects_type tys packageObj
        | None =>
            log ("Malfomred or empty packaged file: " +:+ pretty index)
                (Some true) (Some "red") >>
            ret packageObj
        end in
      mergeObjects_from (S index) rest (Some packageObj')
  end.

Definition mergeObjects (filesDataArray : list parsedFile)
    (packageObj : option packageObject) : M (option packageObject) :=
  mergeObjects_from 0 filesDataArray packageObj.

(** ** [createPackageXmlTemplate] (lines 168-179) *)

(** The parse of the constant [packageStructure], with [types] set to the
    empty array by the callback. *)
Definition createPackageXmlTemplate : packageObject :=
  PackageObject (Some
    (PackageBody [("xmlns", "http://soap.sforce.com/2006/04/metadata")]
                 (JArr [JStr "48.0"])
                 (Some []))).

(** ** [sortValues] (lines 458-464) *)

Definition sortValues_types (tys : list typeEntry) : list typeEntry :=
  map (λ thisType,
         TypeEntry (name thisType) (array_sort sortCompare (members thisType)))
      tys.

Definition sortValues (packageObj : option packageObject) : M packageObject :=
  match packageObj with
  | None => throw (TypeError_undefined "Package")
  | Some p =>
      match Package p with
      | None => throw (TypeError_undefined "types")
      | Some body =>
          match types body with
          | None => throw (TypeError_undefined "forEach")
          | Some tys =>
              ret (PackageObject (Some
                    (PackageBody (attrs body) (version body)
                                 (Some (sortValues_types tys)))))
          end
      end
  end.

(** ** [jsonToCSV] (lines 379-402) *)

(** Truthiness of a string: only the empty string is falsy. *)
Definition truthy (s : string) : bool :=
  match s with EmptyString => false | String _ _ => true end.

(** One pass of the header loop: the running [csvString], [colValues]
    and [rowLimit]. *)
Definition csv_header_step (st : string * list (list string) * nat)
    (thisType : typeEntry) : string * list (list string) * nat :=
  let '(csvString, colValues, rowLimit) := st in
  (csvString +:+ name thisType +:+ ",",
   colValues ++ [members thisType],
   if rowLimit <? length (members thisType)
   then length (members thisType) else rowLimit).

(** One pass of the inner loop: [colValues[col][index]] is [undefined]
    past the end of the column. *)
Definition csv_cell_step (index : nat) (row : string) (col : list string) : string :=
  match col !! index with
  | Some v => if truthy v then row +:+ v +:+ ","
              else row +:+ DQUOTE +:+ DQUOTE +:+ ","
  | None => row +:+ DQUOTE +:+ DQUOTE +:+ ","
  end.

Definition csv_row_step (colValues : list (list string)) (csvString : string)
    (index : nat) : string :=
  let row := fold_left (csv_cell_step index) colValues "" in
  let row := row +:+ CRLF in
  csvString +:+ row.

Definition jsonToCSV_types (tys : list typeEntry) : string :=
  let '(csvString, colValues, rowLimit) :=
    fold_left csv_header_step tys ("", [], 0) in
  let csvString := csvString +:+ CRLF in
  fold_left (csv_row_step colValues) (seq 0 rowLimit) csvString.

(** A [for ... in] over a missing [types] property runs no iteration. *)
Definition jsonToCSV (packageAsJsonObject : packageObject) : M string :=
  match Package packageAsJsonObject with
  | None => throw (TypeError_undefined "types")
  | Some body => ret (jsonToCSV_types (default [] (types body)))
  end.

(** ** [writeFiles], lines 331-334 *)

(** The comparator of line 331. *)
Definition compareTypes (a b : typeEntry) : Z :=
  if js_lt (name b) (name a) then 1%Z else (-1)%Z.

(** [types.sort(compareTypes)], line 331.  Between two groups of
    different names the comparator is the order of their names, and the
    sort returns the groups by increasing name.  Between two groups of
    the same name it answers -1 in both directions; the order in which
    such groups come out is then the choice of the engine's sorting
    algorithm, and [engineOrder] is the array the engine returns. *)
Definition sortTypes (engineOrder : list typeEntry → list typeEntry)
    (tys : list typeEntry) : list typeEntry :=
  if decide (NoDup (map name tys)) then array_sort compareTypes tys
  else engineOrder tys.

(** [config.forcePackageVersion != null]: neither missing nor [null]. *)
Definition forcedVersion (cfg : gmap string json) : option json :=
  match cfg !! "forcePackageVersion" with
  | Some JNull | None => None
  | Some v => Some v
  end.

(** Lines 331-334: the groups sorted by name and the version forced. *)
Definition writeFiles_objectData (engineOrder : list typeEntry → list typeEntry)
    (cfg : gmap string json) (objectData : packageObject) : M packageObject :=
  match Package objectData with
  | None => throw (TypeError_undefined "types")
  | Some body =>
      match types body with
      | None => throw (TypeError_undefined "sort")
      | Some tys =>
          ret (PackageObject (Some
                (PackageBody (attrs body)
                             (default (version body) (forcedVersion cfg))
                             (Some (sortTypes engineOrder tys)))))
      end
  end.

(** ** Configuration values in expressions *)

(** A value inside a template literal. *)
Fixpoint toString (v : json) : string :=
  match v with
  | JNull => "null"
  | JBool b => if b then "true" else "false"
  | JNum n => pretty n
  | JStr s => s
  | JArr l =>
      String.concat ","
        (map (λ x, match x with JNull => "" | _ => toString x end) l)
  | JObj _ => "[object Object]"
  end.

Definition templateValue (v : jsValue) : string :=
  match v with Some j => toString j | None => "undefined" end.

(** A value as the condition of an [if]. *)
Definition truthy_value (v : jsValue) : bool :=
  match v with
  | None | Some JNull => false
  | Some (JBool b) => b
  | Some (JNum n) => negb (n =? 0)%Z
  | Some (JStr s) => truthy s
  | Some (JArr _) | Some (JObj _) => true
  end.

(** [s == v] with a string on the left: a string is compared by content,
    [null] and [undefined] equal no string, a number or a boolean is
    compared with the numeric value of the string ([StringToNumber],
    [None] when the string is not a numeral), an array or an object
    through its string form. *)
Definition looseEqual (StringToNumber : string → option Z)
    (s : string) (v : jsValue) : bool :=
  match v with
  | None | Some JNull => false
  | Some (JStr t) => String.eqb s t
  | Some (JNum n) => bool_decide (StringToNumber s = Some n)
  | Some (JBool b) => bool_decide (StringToNumber s = Some (if b then 1 else 0)%Z)
  | Some (JArr l) => String.eqb s (toString (JArr l))
  | Some (JObj l) => String.eqb s (toString (JObj l))
  end.

(** ** The global [config] and the file system *)

Definition get_config : M (gmap string json) := λ w, (w, Normal (config w)).
Definition set_config (cfg : gmap string json) : M unit := λ w,
  (World (console w) (logFile w) cfg (disk w), Normal ()).
Definition writeFileSync (file data : string) : M unit := λ w,
  (World (console w) (logFile w) (config w) (<[file := data]> (disk w)), Normal ()).

(** A call into the file system whose outcome depends on the folders,
    which [disk] does not record: it acts on the files, and it returns
    ([inl]) or throws ([inr]).  It neither prints, nor touches [config],
    nor ends the process. *)
Definition external (A : Type) : Type :=
  gmap string string → gmap string string * (A + string).

Definition call {A} (f : external A) : M A := λ w,
  let '(files, r) := f (disk w) in
  (World (console w) (logFile w) (config w) files,
   match r with inl a => Normal a | inr e => Throw e end).

(** What [writeFiles] takes from outside the script: the order the engine
    leaves tied groups in; [JSON.stringify(_, undefined, 2)] and the
    xml2js [Builder]; the numeric value of a string; [fs.existsSync] and
    [fs.mkdirSync]; the listing of the sub-folders ([getSubFolders],
    lines 296-300, over [fs.readdirSync] and [fs.statSync]) and the copy
    of a folder tree ([copyRecursiveSync], lines 274-289), both of which
    walk the folders. *)
Record externals : Type := Externals {
  engineOrder : list typeEntry → list typeEntry;
  JSON_stringify : packageObject → string;
  buildObject : packageObject → string;
  StringToNumber : string → option Z;
  existsSync : jsValue → external bool;
  mkdirSync : jsValue → external unit;
  getSubFolders : jsValue → external (list string);
  copyRecursiveSync : string → string → external bool
}.

(** ** [buildMergedPackageFolder] (lines 251-266) *)

Definition buildMergedPackageFolder (env : externals)
    (rootFolder targetFolder : jsValue) : M bool :=
  log ("Building merged package into folder... "
         +:+ templateValue rootFolder +:+ "\" +:+ templateValue targetFolder)
      None None >>
  let! packageFolders := call (getSubFolders env rootFolder) in
  forEachM (λ _ folderName,
      if looseEqual (StringToNumber env) folderName targetFolder then ret ()
      else
        log ("Reading package from: "
               +:+ templateValue rootFolder +:+ "\" +:+ folderName) None None >>
        call (copyRecursiveSync env
                (templateValue rootFolder +:+ "\" +:+ folderName)
                (templateValue rootFolder +:+ "\" +:+ templateValue targetFolder)) >>
        ret ())
    packageFolders () >>
  ret true.

(** ** [writeFiles] (lines 330-371) *)

(** The function has no [return]: it returns [undefined]. *)
Definition writeFiles (env : externals) (objectData : packageObject)
    (filename : string) : M unit :=
  let! cfg := get_config in
  let! objectData := writeFiles_objectData (engineOrder env) cfg objectData in
  log "Writing new package.xml..." None None >>
  let configAsJson := JSON_stringify env objectData in
  let xml := buildObject env objectData in
  let! outputFolderExists := call (existsSync env (cfg !! "outputFolder")) in
  (if outputFolderExists then ret ()
   else call (mkdirSync env (cfg !! "outputFolder"))) >>
  let out := templateValue (cfg !! "outputFolder") +:+ "\" +:+ filename in
  writeFileSync (out +:+ ".json") configAsJson >>
  writeFileSync (out +:+ ".xml") xml >>
  let! csv := jsonToCSV objectData in
  writeFileSync (out +:+ ".csv") csv >>
  if truthy_value (cfg !! "createMergedPackage") then
    buildMergedPackageFolder env (cfg !! "rootFolder") (cfg !! "mergedPackageFolder") >>
    writeFileSync (templateValue (cfg !! "rootFolder") +:+ "\"
                     +:+ templateValue (cfg !! "mergedPackageFolder")
                     +:+ "\package.xml") xml
  else ret ().

(** ** [finish] and the [uncaughtException] handler (lines 519-531) *)

Definition finish : M unit :=
  log "Process completed" (Some true) (Some "yellow") >>
  log (CRLF +:+ CRLF +:+ "------------------------------------------------ ")
      (Some false) None >>
  process_exit 1%Z.

Definition uncaughtException (err : string) : M unit :=
  log err (Some true) (Some "red") >>
  process_exit 1%Z.

(** ** Configuration loading (lines 34-44, 59-60, 160-162, 186-194) *)

Definition configFileName : string := "config.json".

Definition defaultConfig : gmap string json :=
  list_to_map
    [("skipExistingChangeSets", JBool true);
     ("rootFolder", JStr "packages");
     ("forcePackageVersion", JNum 50%Z);
     ("automaticallyFetchChangeSetNames", JBool true);
     ("changesetJSONFile", JStr "changeSetNames.json");
     ("createMergedPackage", JBool true);
     ("mergedPackageFolder", JStr "__mergedPackage");
     ("username", JStr "");
     ("outputFolder", JStr "results")].

Section json_parse.
(** [JSON.parse]; [None] is a SyntaxError. *)
Variable JSON_parse : string → option json.

Definition readJSONFromFile (fileName : string) : M json := λ w,
  match disk w !! fileName with
  | None => (w, Throw ("Error: ENOENT: no such file or directory, open '"
                        +:+ fileName +:+ "'"))
  | Some changeSetsJsonString =>
      match JSON_parse changeSetsJsonString with
      | None => (w, Throw "SyntaxError: Unexpected token in JSON")
      | Some parsedJSON => (w, Normal parsedJSON)
      end
  end.

(** The body calls [readJSONFromFile] and falls off the end. *)
Definition loadConfig (configFileName : string) : M jsValue :=
  readJSONFromFile configFileName >> ret None.

(** Lines 59-60 of [init]. *)
Definition init_config : M unit :=
  let! loadedConfig := loadConfig configFileName in
  let! cfg := get_config in
  set_config (spread_merge cfg loadedConfig).
End json_parse.

(** ** The end of [init] (lines 80-94) *)

(** From the array [readPackageXML] returned. *)
Definition init_merge (env : externals) (packageXmlData : list parsedFile) : M unit :=
  let mergedContent := createPackageXmlTemplate in
  log "Finished reading files. Starting merge" None None >>
  let! mergedData := mergeObjects packageXmlData (Some mergedContent) in
  let! mergedData := sortValues mergedData in
  writeFiles env mergedData "package" >>
  finish.

(** The script with its [uncaughtException] handler installed. *)
Definition run_script (env : externals) (packageXmlData : list parsedFile) : M unit := λ w,
  match init_merge env packageXmlData w with
  | (w', Throw err) => uncaughtException err w'
  | r => r
  end.

(** ** The merge engine in one piece *)

(** The normalisation step: [sortValues], then lines 331-334 of
    [writeFiles]. *)
Definition normalize (engineOrder : list typeEntry → list typeEntry)
    (objectData : option packageObject) : M packageObject :=
  let! sorted := sortValues objectData in
  let! cfg := get_config in
  writeFiles_objectData engineOrder cfg sorted.

(** The fold into the template, then the normalisation step: the package
    that [writeFiles] serialises. *)
Definition merge_and_normalize (engineOrder : list typeEntry → list typeEntry)
    (packageXmlData : list parsedFile) : M packageObject :=
  let! mergedData := mergeObjects packageXmlData (Some createPackageXmlTemplate) in
  normalize engineOrder mergedData.

(** The state in which the script starts, over the given files. *)
Definition initial_world (files : gmap string string) : world :=
  World [] [] defaultConfig files.

(** ** Scraping the change set names (lines 123-153, 63-71) *)

(** [s.indexOf(search)]: the first position of [search] in [s], or -1. *)
Definition indexOf (s search : string) : Z :=
  match String.index 0 search s with
  | Some n => Z.of_nat n
  | None => (-1)%Z
  end.

(** The path every link to a change set carries. *)
Definition detailPage : string := "changemgmt/outboundChangeSetDetailPage.apexp".

(** The test of line 135 on one link: its text, and its [href] attribute
    ([None] when the element has none; the empty string is falsy). *)
Definition isChangeSetLink (linkText : string) (linkTarget : option string) : bool :=
  match linkTarget with
  | Some target =>
      truthy target && (0 <? indexOf target detailPage)%Z
        && negb (String.eqb linkText "Edit")
  | None => false
  end.

Section cheerio.
(** [cheerio.load(html)("a")]: the links of the page in document order,
    each with its text and its [href]. *)
Variable links_of : string → list (string * option string).

Definition parseChangeSetPageContent (html : string) : M (list string) :=
  log "Parsing change set HTML content to scrape change set names" None None >>
  forEachM
    (λ packageNames link,
       if isChangeSetLink link.1 link.2 then
         log ("Found change set with name: " +:+ link.1) None None >>
         ret (packageNames ++ [link.1])
       else ret packageNames)
    (links_of html) [].
End cheerio.

Section change_set_file.
(** [JSON.stringify] on an array of strings, and [JSON.parse]. *)
Variable JSON_stringify_names : list string → string.
Variable JSON_parse : string → option json.


End change_set_file.

(** ** [readPackageXML] (lines 220-243) *)

(** [fs.readFileSync(file).toString()]. *)
Definition readFileSync (file : string) : M string := λ w,
  match disk w !! file with
  | Some content => (w, Normal content)
  | None => (w, Throw ("Error: ENOENT: no such file or directory, open '"
                        +:+ file +:+ "'"))
  end.

(** The manifest of a change set folder. *)
Definition packageXmlPath (rootFolder folderName : string) : string :=
  rootFolder +:+ "\" +:+ folderName +:+ "\package.xml".

Section readPackageXML.
(** [getSubFolders] lists the directories under a folder ([disk] keeps
    files only), and [parseString] is xml2js's, which calls back at once
    with the error, if any (here already printed by [JSON.stringify]),
    and the result. *)
Variable getSubFolders : string → M (list string).
Variable parseString : string → option string * parsedFile.

Definition readPackageXML_folder (rootFolder : string)
    (filesDataArray : list parsedFile) (folderName : string) : M (list parsedFile) :=
  log ("Reading package from: " +:+ packageXmlPath rootFolder folderName) None None >>
  let! content := readFileSync (packageXmlPath rootFolder folderName) in
  (match (parseString content).1 with
   | Some err => log ("Error parsing XML! " +:+ err) (Some true) (Some "red")
   | None => ret ()
   end) >>
  ret (filesDataArray ++ [(parseString content).2]).

Definition readPackageXML (rootFolder : string) : M (list parsedFile) :=
  log "Beginning reading of package.xml files" None None >>
  let! packageFolders := getSubFolders rootFolder in
  log ("Got folders: " +:+ String.concat "," packageFolders) None None >>
  forEachM (readPackageXML_folder rootFolder) packageFolders [].
End readPackageXML.

(** * Vocabulary of the properties *)

(** [x] may stay in front of [y] under the comparator. *)
Definition before {A : Type} (comparefn : A → A → Z) (x y : A) : Prop :=
  (comparefn x y ≤ 0)%Z.

(** [a <= b] on strings: [b < a] is false. *)
Definition str_le (a b : string) : Prop := js_lt b a = false.

(** What the [forEach] does to one group. *)
Definition appendTypes_update (typeName : string) (newMembers : list string)
    (thisType : typeEntry) : typeEntry :=
  if String.eqb (name thisType) typeName
  then TypeEntry (name thisType) (getUnique (members thisType ++ newMembers))
  else thisType.

(** The names of the groups, in order. *)
Definition names (tys : list typeEntry) : list string := map name tys.

(** [m] is a member of a group called [n]. *)
Definition holds (tys : list typeEntry) (n m : string) : Prop :=
  ∃ t, t ∈ tys ∧ name t = n ∧ m ∈ members t.

(** No group lists a member twice. *)
Definition members_unique (tys : list typeEntry) : Prop :=
  Forall (λ t, NoDup (members t)) tys.

(** What [sortValues] does to one group. *)
Definition sortValues_entry (thisType : typeEntry) : typeEntry :=
  TypeEntry (name thisType) (array_sort sortCompare (members thisType)).

(** The two sorting passes together: [sortValues], then line 331. *)
Definition sorted_types (engineOrder : list typeEntry → list typeEntry)
    (tys : list typeEntry) : list typeEntry :=
  sortTypes engineOrder (sortValues_types tys).

(** The groups of a package ([[]] when the property is missing). *)
Definition pkg_types (p : packageObject) : list typeEntry :=
  match Package p with
  | Some body => default [] (types body)
  | None => []
  end.

(** A package object with all its properties present. *)
Definition mkPackage (a : list (string * string)) (v : json)
    (tys : list typeEntry) : packageObject :=
  PackageObject (Some (PackageBody a v (Some tys))).

(** A group with its [members] array present. *)
Definition wellFormedType (thisType : xmlType) : Prop :=
  is_Some (xml_members thisType).

(** A parsed manifest: the [Package] container, its [types] collection,
    and every group of it with [members]. *)
Definition wellFormed (thisFile : parsedFile) : Prop :=
  ∃ tys, file_types thisFile = Some tys ∧ Forall wellFormedType tys.


(** What one group hands to [appendTypesToPackage]. *)
Definition type_entry (thisType : xmlType) : list (string * list string) :=
  match xml_members thisType with
  | Some ms => [(JS_String (xml_name thisType), ms)]
  | None => []
  end.

(** What one file hands to [appendTypesToPackage], in order. *)
Definition file_entries (thisFile : parsedFile) : list (string * list string) :=
  default [] (file_types thisFile) ≫= type_entry.

(** The calls of [appendTypesToPackage] in sequence. *)
Definition merge_entries (entries : list (string * list string))
    (tys : list typeEntry) : list typeEntry :=
  foldl (λ tys e, appendTypes e.1 e.2 tys) tys entries.

(** Two lists of groups with the same content: the same names, and under
    each name the same members. *)
Definition same_content (tys1 tys2 : list typeEntry) : Prop :=
  (∀ n, n ∈ names tys1 ↔ n ∈ names tys2) ∧
  (∀ n m, holds tys1 n m ↔ holds tys2 n m).

(** The groups of a sorted package are in ascending name order and each
    has its members in ascending order. *)
Definition normal_form (tys : list typeEntry) : Prop :=
  Sorted (λ a b, str_le (name a) (name b)) tys ∧
  Forall (λ t, Sorted str_le (members t)) tys.

(** Sample inputs: the two sources of the design document's scenario, a
    manifest of another group, and an accumulator with a repeated
    member. *)
Definition manifest_A : parsedFile :=
  Some (XmlRoot (Some (XmlPackage (Some
    [XmlType (Some ["ApexClass"]) (Some ["Foo"; "Bar"])])))).

Definition manifest_B : parsedFile :=
  Some (XmlRoot (Some (XmlPackage (Some
    [XmlType (Some ["ApexClass"]) (Some ["Bar"; "Baz"])])))).

Definition manifest_pages : parsedFile :=
  Some (XmlRoot (Some (XmlPackage (Some
    [XmlType (Some ["ApexPage"]) (Some ["Home"])])))).

Definition package_with_duplicate : packageObject :=
  mkPackage [] JNull [TypeEntry "ApexClass" ["Foo"; "Foo"]].

(** C2, as stated: whatever the accumulator, every group of the package
    [mergeObjects] returns has duplicate-free members. *)
Definition merge_always_deduplicates : Prop :=
  ∀ (acc : packageObject) (files : list parsedFile) (w w' : world) (p : packageObject),
    mergeObjects files (Some acc) w = (w', Normal (Some p)) →
    members_unique (pkg_types p).

(** The same groups in another order, each with the same members in
    another order. *)
Definition same_groups (tys1 tys2 : list typeEntry) : Prop :=
  ∃ tys, tys1 ≡ₚ tys ∧
         Forall2 (λ t1 t2, name t1 = name t2 ∧ members t1 ≡ₚ members t2) tys tys2.

(** The strings of a list joined end to end. *)
Fixpoint str_concat (l : list string) : string :=
  match l with
  | [] => ""
  | s :: l' => s +:+ str_concat l'
  end.

(** The empty quoted placeholder: two double quotes. *)
Definition placeholder : string := DQUOTE +:+ DQUOTE.

(** The text of one cell: the member when there is one and it is truthy,
    the placeholder otherwise. *)
Definition csv_cell (col : list string) (index : nat) : string :=
  match col !! index with
  | Some v => if truthy v then v else placeholder
  | None => placeholder
  end.

(** A line of fields, each followed by a comma, closed by CR LF. *)
Definition csv_line (cells : list string) : string :=
  str_concat (map (λ c, c +:+ ",") cells) +:+ CRLF.

(** The header line, then one line per row. *)
Definition csv_render (header : list string) (rows : list (list string)) : string :=
  csv_line header +:+ str_concat (map csv_line rows).

(** The largest member count among the groups. *)
Definition rowLimit (tys : list typeEntry) : nat :=
  max_list_with (λ t, length (members t)) tys.

(** The data rows: row [index] has the cell of every group. *)
Definition csv_table (tys : list typeEntry) : list (list string) :=
  map (λ index, map (λ t, csv_cell (members t) index) tys) (seq 0 (rowLimit tys)).

(** The table as the design document words it: a cell is the group's
    member at that row, and the placeholder exactly when the group has
    no member at that row. *)
Definition spec_cell (col : list string) (index : nat) : string :=
  match col !! index with
  | Some v => v
  | None => placeholder
  end.

Definition spec_csv_table (tys : list typeEntry) : list (list string) :=
  map (λ index, map (λ t, spec_cell (members t) index) tys) (seq 0 (rowLimit tys)).

Definition spec_jsonToCSV (tys : list typeEntry) : string :=
  csv_render (names tys) (spec_csv_table tys).

(** C4, as stated: the CSV text is the rendering of the table whose cell
    is the placeholder exactly when the group has no member at that row. *)
Definition csv_pads_short_groups_only : Prop :=
  ∀ tys, jsonToCSV_types tys = spec_jsonToCSV tys.

(** The code [process.exit] was called with, if it was. *)
Definition exit_code {A} (r : world * completion A) : option Z :=
  match r.2 with
  | Exit c => Some c
  | _ => None
  end.

(** A computation that never calls [process.exit]. *)
Definition no_exit {A} (m : M A) : Prop := ∀ w c, (m w).2 ≠ Exit c.

(** Sample surroundings: the output folder is not there yet and can be
    made, the root folder lists [folders], every copy succeeds, and none
    of these calls changes a file that [disk] records; the engine leaves
    tied groups in reverse order. *)
Definition sample_externals (JSON_stringify buildObject : packageObject → string)
    (folders : list string) : externals :=
  Externals reverse JSON_stringify buildObject (λ _, None)
    (λ _ files, (files, inl false))
    (λ _ files, (files, inl ()))
    (λ _ files, (files, inl folders))
    (λ _ _ files, (files, inl true)).


(** A group of the package needs nothing from [(n, ms)]: it is there,
    duplicate-free, with all of [ms]. *)
Definition absorbed (tys : list typeEntry) (n : string) (ms : list string) : Prop :=
  n ∈ names tys ∧
  Forall (λ t, name t = n → NoDup (members t) ∧ ms ⊆ members t) tys.

(** A group filled up with empty strings to [n] members. *)
Definition pad_group (n : nat) (t : typeEntry) : typeEntry :=
  TypeEntry (name t) (members t ++ replicate (n - length (members t)) "").

(** What a call may do to the state: the configuration and the files
    stay, the console and the log only grow. *)
Definition only_logs (w w' : world) : Prop :=
  config w' = config w ∧ disk w' = disk w ∧
  console w `prefix_of` console w' ∧ logFile w `prefix_of` logFile w'.

(** Sample state: two change set folders under [packages], the second
    without its manifest; and a parser that knows the two texts. *)
Definition sample_disk : gmap string string :=
  <["packages\CS1\package.xml" := "A"]> (<["packages\CS3\package.xml" := "B"]> ∅).

Definition sample_parseString (content : string) : option string * parsedFile :=
  if String.eqb content "A" then (None, manifest_A)
  else if String.eqb content "B" then (None, manifest_B)
  else (Some "{}", None).

(** A computation that leaves the global [config] as it is. *)
Definition keeps_config {A} (m : M A) : Prop := ∀ w, config (m w).1 = config w.


(** * Properties *)

(** ** The order on strings *)

Lemma js_lt_spec a b : js_lt a b = true ↔ String_as_OT.lt a b.
Proof.
  unfold js_lt, String_as_OT.lt.
  destruct (String_as_OT.compare a b); naive_solver.
Qed.

Lemma js_lt_irrefl a : js_lt a a = false.
Proof.
  apply not_true_is_false. rewrite js_lt_spec.
  apply (irreflexivity String_as_OT.lt).
Qed.

Lemma js_lt_trichotomy a b : js_lt a b = false → js_lt b a = false → a = b.
Proof.
  intros Hab%not_true_iff_false Hba%not_true_iff_false.
  rewrite js_lt_spec in Hab, Hba.
  by destruct (String_as_OT.compare_spec a b).
Qed.

Lemma js_lt_asym a b : js_lt a b = true → js_lt b a = false.
Proof.
  intros Hab. apply not_true_is_false. intros Hba.
  rewrite js_lt_spec in Hab, Hba.
  apply (irreflexivity String_as_OT.lt a). by etrans.
Qed.

Global Instance str_le_total : Total str_le.
Proof.
  intros a b. unfold str_le.
  destruct (js_lt b a) eqn:Hba; [right; by apply js_lt_asym | by left].
Qed.

Global Instance str_le_trans : Transitive str_le.
Proof.
  intros a b c Hab Hbc. unfold str_le in *.
  apply not_true_is_false. intros Hca. rewrite js_lt_spec in Hca.
  destruct (String_as_OT.compare_spec a b) as [->| Hlt | Hlt].
  - apply js_lt_spec in Hca. congruence.
  - assert (String_as_OT.lt c b) as Hcb by by etrans.
    apply js_lt_spec in Hcb. congruence.
  - apply js_lt_spec in Hlt. congruence.
Qed.

Global Instance str_le_antisym : AntiSymm (=) str_le.
Proof. intros a b Hab Hba. by apply js_lt_trichotomy. Qed.

(** ** [array.sort] *)

Section array_sort_facts.
Context {A : Type} (comparefn : A → A → Z).

Lemma sort_insert_Permutation x l : sort_insert comparefn x l ≡ₚ x :: l.
Proof.
  induction l as [|y l IH]; simpl; [done|].
  destruct (comparefn x y <=? 0)%Z; [done|].
  by rewrite IH, Permutation_swap.
Qed.

Lemma array_sort_Permutation l : array_sort comparefn l ≡ₚ l.
Proof.
  induction l as [|x l IH]; simpl; [done|].
  by rewrite sort_insert_Permutation, IH.
Qed.

Lemma sort_insert_HdRel x l : HdRel (before comparefn) x l → sort_insert comparefn x l = x :: l.
Proof.
  destruct 1 as [|y l Hxy]; simpl; [done|].
  unfold before in Hxy. by rewrite (proj2 (Z.leb_le _ _) Hxy).
Qed.

(** A sorted array is left as it is. *)
Lemma array_sort_Sorted_id l : Sorted (before comparefn) l → array_sort comparefn l = l.
Proof.
  induction 1 as [|x l Hl IH Hx]; simpl; [done|].
  rewrite IH. by apply sort_insert_HdRel.
Qed.

Context `{!Total (before comparefn)}.

Lemma sort_insert_Sorted x l :
  Sorted (before comparefn) l → Sorted (before comparefn) (sort_insert comparefn x l).
Proof.
  induction 1 as [|y l Hl IH Hy]; simpl; [by repeat constructor|].
  destruct (comparefn x y <=? 0)%Z eqn:Hxy.
  - apply Z.leb_le in Hxy. by repeat constructor.
  - apply Z.leb_gt in Hxy.
    assert ((before comparefn) y x) as Hyx.
    { destruct (total (before comparefn) x y) as [Hb|Hb]; [unfold before in Hb; lia|done]. }
    constructor; [done|].
    destruct Hy as [|z l Hyz]; simpl in *; [by constructor|].
    destruct (comparefn x z <=? 0)%Z; by constructor.
Qed.

Lemma array_sort_Sorted l : Sorted (before comparefn) (array_sort comparefn l).
Proof.
  induction l as [|x l IH]; simpl; [constructor|].
  by apply sort_insert_Sorted.
Qed.

Lemma array_sort_idemp l :
  array_sort comparefn (array_sort comparefn l) = array_sort comparefn l.
Proof. apply array_sort_Sorted_id, array_sort_Sorted. Qed.

(** Two arrangements of the same elements sort to the same array when
    the comparator cannot tie two different elements of them. *)
Lemma array_sort_unique `{!Transitive (before comparefn)} l1 l2 :
  (∀ x y, x ∈ l1 → y ∈ l1 → (before comparefn) x y → (before comparefn) y x → x = y) →
  l1 ≡ₚ l2 → array_sort comparefn l1 = array_sort comparefn l2.
Proof.
  intros Hanti Hperm.
  apply (Sorted_unique_strong (before comparefn)); try apply array_sort_Sorted.
  - intros x y Hx Hy. rewrite array_sort_Permutation in Hx.
    rewrite array_sort_Permutation, <-Hperm in Hy. by apply Hanti.
  - by rewrite !array_sort_Permutation.
Qed.
End array_sort_facts.

Lemma before_sortCompare x y : before sortCompare x y ↔ str_le x y.
Proof.
  unfold before, sortCompare, str_le.
  destruct (js_lt x y) eqn:Hxy.
  - apply js_lt_asym in Hxy. rewrite Hxy. split; [done | lia].
  - destruct (js_lt y x); split; (done || lia).
Qed.

Lemma before_compareTypes a b : before compareTypes a b ↔ str_le (name a) (name b).
Proof.
  unfold before, compareTypes, str_le.
  destruct (js_lt (name b) (name a)); split; (done || lia).
Qed.

Global Instance before_sortCompare_total : Total (before sortCompare).
Proof. intros x y. rewrite !before_sortCompare. apply (total str_le). Qed.
Global Instance before_sortCompare_trans : Transitive (before sortCompare).
Proof. intros x y z. rewrite !before_sortCompare. apply transitivity. Qed.
Global Instance before_compareTypes_total : Total (before compareTypes).
Proof. intros x y. rewrite !before_compareTypes. apply (total str_le). Qed.
Global Instance before_compareTypes_trans : Transitive (before compareTypes).
Proof. intros x y z. rewrite !before_compareTypes. apply transitivity. Qed.

(** The default sort depends on the multiset of the strings only. *)
Lemma sort_members_Permutation l1 l2 :
  l1 ≡ₚ l2 → array_sort sortCompare l1 = array_sort sortCompare l2.
Proof.
  apply array_sort_unique; [apply _..|].
  intros x y _ _ Hxy%before_sortCompare Hyx%before_sortCompare.
  by apply (anti_symm str_le).
Qed.

(** ** [getUnique] *)

Lemma existsb_eqb_elem_of (x : string) (l : list string) :
  existsb (String.eqb x) l = true ↔ x ∈ l.
Proof.
  induction l as [|y l IH]; simpl.
  - split; [done | by intros ?%elem_of_nil].
  - rewrite orb_true_iff, IH, String.eqb_eq, elem_of_cons. done.
Qed.

Lemma getUnique_step_NoDup u x : NoDup u → NoDup (getUnique_step u x).
Proof.
  intros Hu. unfold getUnique_step.
  destruct (existsb (String.eqb x) u) eqn:Hx; [done|].
  apply NoDup_app. split_and!; [done| |apply NoDup_singleton].
  intros y Hy ->%list_elem_of_singleton.
  apply existsb_eqb_elem_of in Hy. congruence.
Qed.

Lemma getUnique_step_elem_of u x y :
  y ∈ getUnique_step u x ↔ y ∈ u ∨ y = x.
Proof.
  unfold getUnique_step.
  destruct (existsb (String.eqb x) u) eqn:Hx.
  - apply existsb_eqb_elem_of in Hx. naive_solver.
  - rewrite elem_of_app, list_elem_of_singleton. done.
Qed.

Lemma getUnique_fold_NoDup l u :
  NoDup u → NoDup (fold_left getUnique_step l u).
Proof.
  revert u. induction l as [|x l IH]; intros u Hu; simpl; [done|].
  by apply IH, getUnique_step_NoDup.
Qed.

Lemma getUnique_fold_elem_of l u y :
  y ∈ fold_left getUnique_step l u ↔ y ∈ u ∨ y ∈ l.
Proof.
  revert u. induction l as [|x l IH]; intros u; simpl.
  - rewrite elem_of_nil. naive_solver.
  - rewrite IH, getUnique_step_elem_of, elem_of_cons. naive_solver.
Qed.

Lemma getUnique_NoDup l : NoDup (getUnique l).
Proof. apply getUnique_fold_NoDup, NoDup_nil_2. Qed.

Lemma getUnique_elem_of l y : y ∈ getUnique l ↔ y ∈ l.
Proof.
  unfold getUnique. rewrite getUnique_fold_elem_of, elem_of_nil. naive_solver.
Qed.

(** ** [appendTypesToPackage] on the list of groups *)

Lemma existsb_name_elem_of typeName tys :
  existsb (λ t, String.eqb (name t) typeName) tys = true ↔ typeName ∈ names tys.
Proof.
  unfold names. induction tys as [|t tys IH]; simpl.
  - split; [done | by intros ?%elem_of_nil].
  - rewrite orb_true_iff, IH, String.eqb_eq, elem_of_cons. naive_solver.
Qed.

Lemma appendTypes_forEach_spec typeName newMembers tys matchFound :
  appendTypes_forEach typeName newMembers tys matchFound =
    (map (appendTypes_update typeName newMembers) tys,
     matchFound || existsb (λ t, String.eqb (name t) typeName) tys).
Proof.
  revert matchFound. induction tys as [|t tys IH]; intros b; simpl.
  - by rewrite orb_false_r.
  - unfold appendTypes_update at 1.
    destruct (String.eqb (name t) typeName); rewrite IH; simpl.
    + by rewrite orb_true_r.
    + done.
Qed.

Lemma appendTypes_update_name typeName newMembers t :
  name (appendTypes_update typeName newMembers t) = name t.
Proof. unfold appendTypes_update. by destruct (String.eqb _ _). Qed.

Lemma names_update typeName newMembers tys :
  names (map (appendTypes_update typeName newMembers) tys) = names tys.
Proof.
  unfold names. rewrite <-list_fmap_compose. apply list_fmap_ext.
  intros _ t _. apply appendTypes_update_name.
Qed.

Lemma update_absent typeName newMembers tys :
  typeName ∉ names tys →
  map (appendTypes_update typeName newMembers) tys = tys.
Proof.
  unfold names. induction tys as [|t tys IH]; simpl; [done|].
  rewrite not_elem_of_cons. intros [Hne Hnot]. rewrite IH by done.
  unfold appendTypes_update.
  destruct (String.eqb (name t) typeName) eqn:Heq; [|done].
  apply String.eqb_eq in Heq. congruence.
Qed.

(** A matching name updates in place; otherwise one group is appended. *)
Lemma appendTypes_present typeName newMembers tys :
  typeName ∈ names tys →
  appendTypes typeName newMembers tys =
    map (appendTypes_update typeName newMembers) tys.
Proof.
  intros Hin%existsb_name_elem_of. unfold appendTypes.
  by rewrite appendTypes_forEach_spec, Hin.
Qed.

Lemma appendTypes_absent typeName newMembers tys :
  typeName ∉ names tys →
  appendTypes typeName newMembers tys =
    tys ++ [TypeEntry typeName (getUnique newMembers)].
Proof.
  intros Hnot. unfold appendTypes. rewrite appendTypes_forEach_spec.
  destruct (existsb _ tys) eqn:Hex.
  - by apply existsb_name_elem_of in Hex.
  - simpl. by rewrite update_absent.
Qed.

Lemma appendTypes_names_NoDup typeName newMembers tys :
  NoDup (names tys) → NoDup (names (appendTypes typeName newMembers tys)).
Proof.
  intros Hnd. destruct (decide (typeName ∈ names tys)) as [Hin|Hnot].
  - by rewrite appendTypes_present, names_update.
  - rewrite appendTypes_absent by done. unfold names in *.
    rewrite map_app. simpl. apply NoDup_app. split_and!; [done| |apply NoDup_singleton].
    by intros x Hx ->%list_elem_of_singleton.
Qed.

Lemma appendTypes_members_unique typeName newMembers tys :
  members_unique tys → members_unique (appendTypes typeName newMembers tys).
Proof.
  unfold members_unique. intros Hu.
  destruct (decide (typeName ∈ names tys)) as [Hin|Hnot].
  - rewrite appendTypes_present by done. apply Forall_fmap.
    eapply Forall_impl; [done|]. intros t Ht. simpl.
    unfold appendTypes_update. destruct (String.eqb _ _); [|done].
    apply getUnique_NoDup.
  - rewrite appendTypes_absent by done. apply Forall_app. split; [done|].
    constructor; [apply getUnique_NoDup | constructor].
Qed.

Lemma appendTypes_elem_of_names typeName newMembers tys n :
  n ∈ names (appendTypes typeName newMembers tys) ↔ n ∈ names tys ∨ n = typeName.
Proof.
  destruct (decide (typeName ∈ names tys)) as [Hin|Hnot].
  - rewrite appendTypes_present by done. rewrite names_update.
    split; [by left | by intros [?| ->]].
  - rewrite appendTypes_absent by done. unfold names.
    rewrite map_app, elem_of_app. simpl. by rewrite list_elem_of_singleton.
Qed.

Lemma appendTypes_holds typeName newMembers tys n m :
  holds (appendTypes typeName newMembers tys) n m ↔
  holds tys n m ∨ (n = typeName ∧ m ∈ newMembers).
Proof.
  destruct (decide (typeName ∈ names tys)) as [Hin|Hnot].
  - rewrite appendTypes_present by done. unfold holds. split.
    + intros (t' & Ht' & Hn & Hm).
      apply list_elem_of_fmap in Ht' as (t & -> & Ht).
      unfold appendTypes_update in Hn, Hm.
      destruct (String.eqb (name t) typeName) eqn:Heq; [|by eauto].
      apply String.eqb_eq in Heq. simpl in *.
      rewrite getUnique_elem_of, elem_of_app in Hm.
      destruct Hm as [Hm|Hm]; [by eauto|].
      right. by subst.
    + intros [(t & Ht & Hn & Hm)|[-> Hm]].
      * exists (appendTypes_update typeName newMembers t). split_and!.
        -- apply list_elem_of_fmap. eauto.
        -- by rewrite appendTypes_update_name.
        -- unfold appendTypes_update. destruct (String.eqb _ _); [|done].
           simpl. apply getUnique_elem_of, elem_of_app. by left.
      * apply list_elem_of_fmap in Hin as (t & Hn & Ht).
        exists (appendTypes_update typeName newMembers t). split_and!.
        -- apply list_elem_of_fmap. eauto.
        -- by rewrite appendTypes_update_name.
        -- unfold appendTypes_update.
           rewrite (proj2 (String.eqb_eq _ _)) by done.
           simpl. apply getUnique_elem_of, elem_of_app. by right.
  - rewrite appendTypes_absent by done. unfold holds. split.
    + intros (t & [Ht| ->%list_elem_of_singleton]%elem_of_app & Hn & Hm); [by eauto|].
      simpl in *. rewrite getUnique_elem_of in Hm. by right.
    + intros [(t & Ht & Hn & Hm)|[-> Hm]].
      * exists t. rewrite elem_of_app. eauto.
      * exists (TypeEntry typeName (getUnique newMembers)).
        rewrite elem_of_app, list_elem_of_singleton. simpl.
        rewrite getUnique_elem_of. by split_and!; [right|..].
Qed.

(** ** Sorting the groups *)

Lemma sortValues_types_eq tys : sortValues_types tys = map sortValues_entry tys.
Proof. done. Qed.

Lemma names_sortValues tys : names (sortValues_types tys) = names tys.
Proof. unfold names, sortValues_types. by rewrite <-list_fmap_compose. Qed.

Lemma names_NoDup_inj tys x y :
  NoDup (names tys) → x ∈ tys → y ∈ tys → name x = name y → x = y.
Proof.
  unfold names. induction tys as [|t tys IH]; simpl.
  { by intros _ ?%elem_of_nil. }
  rewrite NoDup_cons. intros [Hnot Hnd].
  rewrite !elem_of_cons. intros [->|Hx] [->|Hy] Hname; [done| | |by apply IH].
  - destruct Hnot. rewrite Hname. by apply list_elem_of_fmap_2.
  - destruct Hnot. rewrite <-Hname. by apply list_elem_of_fmap_2.
Qed.

Lemma names_NoDup_NoDup tys : NoDup (names tys) → NoDup tys.
Proof. apply NoDup_fmap_1. Qed.

(** Line 331 depends only on which groups are present, as long as their
    names are pairwise distinct. *)
Lemma sort_types_Permutation tys1 tys2 :
  NoDup (names tys1) → tys1 ≡ₚ tys2 →
  array_sort compareTypes tys1 = array_sort compareTypes tys2.
Proof.
  intros Hnd. apply array_sort_unique; [apply _..|].
  intros x y Hx Hy Hxy%before_compareTypes Hyx%before_compareTypes.
  apply (names_NoDup_inj tys1); [done..|]. by apply (anti_symm str_le).
Qed.

Lemma names_sort_types tys : names (array_sort compareTypes tys) ≡ₚ names tys.
Proof. unfold names. by rewrite array_sort_Permutation. Qed.

Lemma sortValues_entry_sorted t :
  Sorted (before sortCompare) (members t) → sortValues_entry t = t.
Proof.
  intros Hs. destruct t as [n ms]. unfold sortValues_entry. simpl in *.
  by rewrite array_sort_Sorted_id.
Qed.

Lemma sortValues_types_sorted tys :
  Forall (λ t, Sorted (before sortCompare) (members t)) tys →
  sortValues_types tys = tys.
Proof.
  induction 1 as [|t tys Ht _ IH]; [done|].
  rewrite sortValues_types_eq in *. simpl.
  by rewrite IH, sortValues_entry_sorted.
Qed.

Lemma sortValues_types_members_sorted tys :
  Forall (λ t, Sorted (before sortCompare) (members t)) (sortValues_types tys).
Proof.
  rewrite sortValues_types_eq. apply Forall_fmap, Forall_true.
  intros t. simpl. apply array_sort_Sorted, _.
Qed.

(** With pairwise-distinct names the engine has no say. *)
Lemma sortTypes_NoDup engineOrder tys :
  NoDup (names tys) → sortTypes engineOrder tys = array_sort compareTypes tys.
Proof. intros Hnd. unfold sortTypes. by rewrite decide_True. Qed.

Lemma sorted_types_NoDup engineOrder tys :
  NoDup (names tys) →
  sorted_types engineOrder tys = array_sort compareTypes (sortValues_types tys).
Proof.
  intros Hnd. unfold sorted_types.
  apply sortTypes_NoDup. by rewrite names_sortValues.
Qed.

Lemma names_sorted_types engineOrder tys :
  NoDup (names tys) → names (sorted_types engineOrder tys) ≡ₚ names tys.
Proof.
  intros Hnd. by rewrite sorted_types_NoDup, names_sort_types, names_sortValues.
Qed.

Lemma sorted_types_idemp engineOrder tys :
  NoDup (names tys) →
  sorted_types engineOrder (sorted_types engineOrder tys) = sorted_types engineOrder tys.
Proof.
  intros Hnd.
  rewrite (sorted_types_NoDup _ (sorted_types engineOrder tys))
    by by rewrite names_sorted_types.
  rewrite (sorted_types_NoDup _ tys) by done.
  rewrite (sortValues_types_sorted (array_sort _ _)).
  - apply array_sort_idemp, _.
  - rewrite array_sort_Permutation.
    apply sortValues_types_members_sorted.
Qed.

(** ** The normalisation step of the pipeline *)

Lemma pkg_types_mkPackage a v tys : pkg_types (mkPackage a v tys) = tys.
Proof. done. Qed.

Lemma normalize_mkPackage engineOrder a v tys w :
  normalize engineOrder (Some (mkPackage a v tys)) w =
    (w, Normal (mkPackage a (default v (forcedVersion (config w)))
                  (sorted_types engineOrder tys))).
Proof. done. Qed.

(** ** The fold of [mergeObjects] *)

Lemma appendTypesToPackage_Normal typeName newMembers p w w' p' :
  appendTypesToPackage typeName newMembers p w = (w', Normal p') →
  w' = w ∧ is_Some (Package p') ∧
  pkg_types p' = appendTypes typeName newMembers (pkg_types p).
Proof.
  unfold appendTypesToPackage, pkg_types.
  destruct (Package p) as [body|]; [|done].
  intros [= <- <-]. simpl. eauto.
Qed.

Section fold_invariant.
(** A property of the groups that every [appendTypesToPackage] keeps
    is kept by the whole fold, whatever files come in. *)
Variable P : list typeEntry → Prop.
Hypothesis P_appendTypes :
  ∀ typeName newMembers tys, P tys → P (appendTypes typeName newMembers tys).

Lemma mergeObjects_type_preserves p thisType w w' p' :
  mergeObjects_type p thisType w = (w', Normal p') →
  P (pkg_types p) → P (pkg_types p').
Proof.
  unfold mergeObjects_type.
  destruct (xml_members thisType) as [ms|]; [|done].
  unfold bind. simpl.
  intros (_ & _ & ->)%appendTypesToPackage_Normal. apply P_appendTypes.
Qed.

Lemma forEachM_preserves tys p w w' p' :
  forEachM mergeObjects_type tys p w = (w', Normal p') →
  P (pkg_types p) → P (pkg_types p').
Proof.
  revert p w. induction tys as [|t tys IH]; intros p w; simpl.
  { by intros [= <- <-]. }
  unfold bind at 1.
  destruct (mergeObjects_type p t w) as [w1 [p1| |]] eqn:Hstep; [|done..].
  intros Hrest Hp. eapply IH; [done|].
  by eapply mergeObjects_type_preserves.
Qed.

Lemma mergeObjects_from_preserves index files p w w' r :
  mergeObjects_from index files (Some p) w = (w', Normal r) →
  P (pkg_types p) → ∃ p', r = Some p' ∧ P (pkg_types p').
Proof.
  revert index p w. induction files as [|f files IH]; intros index p w; simpl.
  { intros [= <- <-]. eauto. }
  unfold bind at 1.
  destruct (file_types f) as [tys|].
  - destruct (forEachM mergeObjects_type tys p w) as [w1 [p1| |]] eqn:Hstep;
      [|done..].
    intros Hrest Hp. eapply IH; [done|]. by eapply forEachM_preserves.
  - unfold bind. simpl. intros Hrest Hp. by eapply IH.
Qed.
End fold_invariant.

(** ** Files that merge without an exception *)

Lemma merge_entries_app es1 es2 tys :
  merge_entries (es1 ++ es2) tys = merge_entries es2 (merge_entries es1 tys).
Proof. apply foldl_app. Qed.

Lemma forEachM_mergeObjects_type_ok xtys a v tys w :
  Forall wellFormedType xtys →
  ∃ w', forEachM mergeObjects_type xtys (mkPackage a v tys) w =
          (w', Normal (mkPackage a v (merge_entries (xtys ≫= type_entry) tys)))
        ∧ config w' = config w.
Proof.
  intros Hwf. revert tys w.
  induction Hwf as [|x xtys [ms Hms] _ IH]; intros tys w; simpl.
  { by eexists. }
  unfold bind at 1, mergeObjects_type at 1, type_entry at 1. rewrite Hms.
  unfold bind at 1. simpl.
  edestruct IH as (w' & Hw' & Hcfg).
  exists w'. split; [exact Hw' | exact Hcfg].
Qed.

Lemma file_entries_Some f xtys :
  file_types f = Some xtys → file_entries f = xtys ≫= type_entry.
Proof. unfold file_entries. by intros ->. Qed.

Lemma mergeObjects_from_ok index files a v tys w :
  Forall wellFormed files →
  ∃ w', mergeObjects_from index files (Some (mkPackage a v tys)) w =
          (w', Normal (Some (mkPackage a v
                               (merge_entries (files ≫= file_entries) tys))))
        ∧ config w' = config w.
Proof.
  intros Hwf. revert index tys w.
  induction Hwf as [|f files (xtys & Hf & Hx) _ IH]; intros index tys w;
    cbn [mergeObjects_from from_option id].
  { by eexists. }
  unfold bind at 1. rewrite Hf.
  destruct (forEachM_mergeObjects_type_ok xtys a v tys w Hx) as (w1 & -> & Hc1).
  destruct (IH (S index) (merge_entries (xtys ≫= type_entry) tys) w1)
    as (w' & -> & Hc').
  exists w'. split; [|congruence].
  change ((f :: files) ≫= file_entries)
    with (file_entries f ++ (files ≫= file_entries)).
  by rewrite merge_entries_app, (file_entries_Some f xtys Hf).
Qed.

(** ** What the merged groups contain *)

Lemma merge_entries_names_NoDup es tys :
  NoDup (names tys) → NoDup (names (merge_entries es tys)).
Proof.
  revert tys. induction es as [|e es IH]; intros tys Hnd; simpl; [done|].
  by apply IH, appendTypes_names_NoDup.
Qed.

Lemma merge_entries_members_unique es tys :
  members_unique tys → members_unique (merge_entries es tys).
Proof.
  revert tys. induction es as [|e es IH]; intros tys Hnd; simpl; [done|].
  by apply IH, appendTypes_members_unique.
Qed.

Lemma merge_entries_elem_of_names es tys n :
  n ∈ names (merge_entries es tys) ↔ n ∈ names tys ∨ n ∈ es.*1.
Proof.
  revert tys. induction es as [|e es IH]; intros tys; simpl.
  - rewrite elem_of_nil. naive_solver.
  - rewrite IH, appendTypes_elem_of_names, elem_of_cons. naive_solver.
Qed.

Lemma merge_entries_holds es tys n m :
  holds (merge_entries es tys) n m ↔
  holds tys n m ∨ ∃ ms, (n, ms) ∈ es ∧ m ∈ ms.
Proof.
  revert tys. induction es as [|[n' ms'] es IH]; intros tys; simpl.
  - split; [by left|]. intros [?|(ms & ?%elem_of_nil & _)]; done.
  - rewrite IH, appendTypes_holds. split.
    + intros [[?|[-> ?]]|(ms & ? & ?)]; [by left| |].
      * right. exists ms'. split; [by left|done].
      * right. exists ms. split; [by right|done].
    + intros [?|(ms & [[= -> ->]|?]%elem_of_cons & ?)]; [by left;left| |].
      * left. by right.
      * right. by exists ms.
Qed.

Lemma holds_NoDup tys t m :
  NoDup (names tys) → t ∈ tys → holds tys (name t) m ↔ m ∈ members t.
Proof.
  intros Hnd Ht. split.
  - intros (t' & Ht' & Hn & Hm).
    by rewrite <-(names_NoDup_inj tys t' t Hnd Ht' Ht Hn).
  - intros Hm. by exists t.
Qed.

(** With distinct names and duplicate-free members, the content decides
    the sorted groups. *)
Lemma sorted_types_same_content engineOrder tys1 tys2 :
  NoDup (names tys1) → NoDup (names tys2) →
  members_unique tys1 → members_unique tys2 →
  same_content tys1 tys2 →
  sorted_types engineOrder tys1 = sorted_types engineOrder tys2.
Proof.
  intros Hnd1 Hnd2 Hu1 Hu2 [Hnames Hholds]. rewrite !sorted_types_NoDup by done.
  apply sort_types_Permutation; [by rewrite names_sortValues|].
  assert (∀ tysA tysB,
    NoDup (names tysA) → NoDup (names tysB) →
    members_unique tysA → members_unique tysB →
    (∀ n, n ∈ names tysA → n ∈ names tysB) →
    (∀ n m, holds tysA n m ↔ holds tysB n m) →
    ∀ e, e ∈ sortValues_types tysA → e ∈ sortValues_types tysB) as Hincl.
  { intros tysA tysB HndA HndB HuA HuB Hn Hh e.
    rewrite !sortValues_types_eq.
    intros (tA & -> & HtA)%list_elem_of_fmap.
    assert (name tA ∈ names tysB) as (tB & HnB & HtB)%list_elem_of_fmap.
    { apply Hn. by apply list_elem_of_fmap_2. }
    apply list_elem_of_fmap. exists tB. split; [|done].
    unfold sortValues_entry. rewrite HnB. f_equal.
    apply sort_members_Permutation, NoDup_Permutation.
    - by apply (proj1 (Forall_forall _ _) HuA).
    - by apply (proj1 (Forall_forall _ _) HuB).
    - intros m. rewrite <-(holds_NoDup tysA tA m), <-(holds_NoDup tysB tB m) by done.
      by rewrite HnB, Hh. }
  apply NoDup_Permutation.
  - apply names_NoDup_NoDup. by rewrite names_sortValues.
  - apply names_NoDup_NoDup. by rewrite names_sortValues.
  - intros e. split; apply Hincl; try done.
    + intros n. apply Hnames.
    + intros n. apply Hnames.
Qed.

Lemma holds_Permutation tys1 tys2 n m :
  tys1 ≡ₚ tys2 → holds tys1 n m ↔ holds tys2 n m.
Proof. intros Hp. unfold holds. by setoid_rewrite Hp. Qed.

Lemma holds_sortValues tys n m : holds (sortValues_types tys) n m ↔ holds tys n m.
Proof.
  rewrite sortValues_types_eq. unfold holds. split.
  - intros (t' & (t & -> & Ht)%list_elem_of_fmap & Hn & Hm). simpl in *.
    rewrite array_sort_Permutation in Hm. eauto.
  - intros (t & Ht & Hn & Hm). exists (sortValues_entry t). split_and!.
    + by apply list_elem_of_fmap_2.
    + done.
    + simpl. by rewrite array_sort_Permutation.
Qed.

Lemma holds_sorted_types engineOrder tys n m :
  NoDup (names tys) → holds (sorted_types engineOrder tys) n m ↔ holds tys n m.
Proof.
  intros Hnd. rewrite sorted_types_NoDup by done.
  by rewrite (holds_Permutation _ _ n m (array_sort_Permutation _ _)),
    holds_sortValues.
Qed.

Lemma Sorted_iff {A} (R1 R2 : relation A) l :
  (∀ x y, R1 x y ↔ R2 x y) → Sorted R1 l → Sorted R2 l.
Proof.
  intros HR. induction 1 as [|x l _ IH Hx]; constructor; [done|].
  destruct Hx; constructor. by apply HR.
Qed.

Lemma sorted_types_normal_form engineOrder tys :
  NoDup (names tys) → normal_form (sorted_types engineOrder tys).
Proof.
  intros Hnd. rewrite sorted_types_NoDup by done. split.
  - eapply Sorted_iff; [apply before_compareTypes|].
    apply array_sort_Sorted, _.
  - rewrite array_sort_Permutation.
    eapply Forall_impl; [apply sortValues_types_members_sorted|].
    intros t. simpl. apply Sorted_iff, before_sortCompare.
Qed.

(** ** Merging from the template, then sorting *)

Lemma merge_and_normalize_ok engineOrder files w :
  Forall wellFormed files →
  ∃ w', merge_and_normalize engineOrder files w =
    (w', Normal (mkPackage [("xmlns", "http://soap.sforce.com/2006/04/metadata")]
                   (default (JArr [JStr "48.0"]) (forcedVersion (config w)))
                   (sorted_types engineOrder (merge_entries (files ≫= file_entries) [])))).
Proof.
  intros Hwf. unfold merge_and_normalize, mergeObjects, createPackageXmlTemplate.
  destruct (mergeObjects_from_ok 0 files
              [("xmlns", "http://soap.sforce.com/2006/04/metadata")]
              (JArr [JStr "48.0"]) [] w Hwf) as (w' & Hm & Hcfg).
  exists w'. unfold bind. unfold mkPackage in Hm. rewrite Hm.
  rewrite <-Hcfg. apply normalize_mkPackage.
Qed.

(** C1: for every list of well-formed parsed manifests and every
    permutation of it, folding the manifests into the empty template with
    [mergeObjects] and then sorting the members and the groups gives one
    and the same package.  Its groups are exactly the names that occur in
    the files, each holding exactly the members the files list under that
    name, in ascending order. *)
Theorem merge_order_independent (engineOrder : list typeEntry → list typeEntry)
    (files files' : list parsedFile) (w : world) :
  Forall wellFormed files → files ≡ₚ files' →
  ∃ m, (merge_and_normalize engineOrder files w).2 = Normal m ∧
       (merge_and_normalize engineOrder files' w).2 = Normal m ∧
       normal_form (pkg_types m) ∧
       (∀ n, n ∈ names (pkg_types m) ↔ n ∈ (files ≫= file_entries).*1) ∧
       (∀ n x, holds (pkg_types m) n x ↔
               ∃ ms, (n, ms) ∈ files ≫= file_entries ∧ x ∈ ms).
Proof.
  intros Hwf Hperm.
  assert (Forall wellFormed files') as Hwf' by by rewrite <-Hperm.
  destruct (merge_and_normalize_ok engineOrder files w Hwf) as [w1 H1].
  destruct (merge_and_normalize_ok engineOrder files' w Hwf') as [w2 H2].
  assert (∀ fs, NoDup (names (merge_entries (fs ≫= file_entries) []))) as Hnd.
  { intros fs. apply merge_entries_names_NoDup, NoDup_nil_2. }
  eexists. rewrite H1, H2. cbn [snd]. rewrite pkg_types_mkPackage. split_and!.
  - done.
  - do 2 f_equal. apply sorted_types_same_content.
    + apply Hnd.
    + apply Hnd.
    + apply merge_entries_members_unique, Forall_nil_2.
    + apply merge_entries_members_unique, Forall_nil_2.
    + split.
      * intros n. rewrite !merge_entries_elem_of_names. by rewrite Hperm.
      * intros n x. rewrite !merge_entries_holds. by setoid_rewrite Hperm.
  - apply sorted_types_normal_form, Hnd.
  - intros n. rewrite names_sorted_types, merge_entries_elem_of_names by apply Hnd.
    unfold names. simpl. rewrite elem_of_nil. naive_solver.
  - intros n x. rewrite holds_sorted_types, merge_entries_holds by apply Hnd.
    split; [|by right]. intros [(t & ?%elem_of_nil & _)|?]; done.
Qed.

(** C2 fails for an accumulator that already carries a repeated member
    in a group no incoming file names: [getUnique] runs only on the group
    an incoming group matches and on a group being appended.  Here the
    accumulator holds ApexClass with Foo twice and the only file brings
    ApexPage. *)
Lemma merge_keeps_untouched_duplicates :
  (mergeObjects [manifest_pages] (Some package_with_duplicate) (initial_world ∅)).2 =
    Normal (Some (mkPackage [] JNull [TypeEntry "ApexClass" ["Foo"; "Foo"];
                                      TypeEntry "ApexPage" ["Home"]])) ∧
  ¬ members_unique [TypeEntry "ApexClass" ["Foo"; "Foo"];
                    TypeEntry "ApexPage" ["Home"]] ∧
  ¬ merge_always_deduplicates.
Proof.
  assert (¬ members_unique [TypeEntry "ApexClass" ["Foo"; "Foo"];
                            TypeEntry "ApexPage" ["Home"]]) as Hdup.
  { intros [Hdup _]%Forall_cons_1. simpl in Hdup.
    apply NoDup_cons_1_1 in Hdup. apply Hdup. by left. }
  split_and!; [done|done|].
  intros Hclaim. apply Hdup.
  by apply (Hclaim package_with_duplicate [manifest_pages] (initial_world ∅)
    (mergeObjects [manifest_pages] (Some package_with_duplicate) (initial_world ∅)).1
    (mkPackage [] JNull [TypeEntry "ApexClass" ["Foo"; "Foo"];
                         TypeEntry "ApexPage" ["Home"]])).
Qed.

(** C2, amended: from an accumulator whose groups have duplicate-free
    members (the empty template is one), every package [mergeObjects]
    returns has duplicate-free members in every group, also when several
    files contribute the same member to the same group; and for
    well-formed files it does return one. *)
Theorem merge_members_unique (acc : packageObject) (files : list parsedFile) (w : world) :
  members_unique (pkg_types acc) →
  (∀ w' r, mergeObjects files (Some acc) w = (w', Normal r) →
     ∃ p, r = Some p ∧ members_unique (pkg_types p)) ∧
  (∀ a v tys, acc = mkPackage a v tys → Forall wellFormed files →
     ∃ w' p, mergeObjects files (Some acc) w = (w', Normal (Some p)) ∧
             members_unique (pkg_types p)).
Proof.
  intros Hacc. split.
  - intros w' r Hrun. unfold mergeObjects in Hrun.
    eapply (mergeObjects_from_preserves members_unique); [|done..].
    intros. by apply appendTypes_members_unique.
  - intros a v tys -> Hwf.
    destruct (mergeObjects_from_ok 0 files a v tys w Hwf) as (w' & Hrun & _).
    exists w'. eexists. split; [exact Hrun|].
    rewrite pkg_types_mkPackage. by apply merge_entries_members_unique.
Qed.

(** C3: from groups with pairwise-distinct names, [appendTypesToPackage]
    returns groups with pairwise-distinct names: a name that is already
    there (exact string equality) updates its group in place, and a group
    is appended only when no group has that name.  The fold of
    [mergeObjects] and the two sorting passes keep the names distinct. *)
Theorem names_stay_distinct (engineOrder : list typeEntry → list typeEntry)
    (typeName : string) (newMembers : list string)
    (a : list (string * string)) (v : json) (ty : option (list typeEntry)) (w : world) :
  let tys := default [] ty in
  NoDup (names tys) →
  (∃ tys',
     appendTypesToPackage typeName newMembers
       (PackageObject (Some (PackageBody a v ty))) w = (w, Normal (mkPackage a v tys')) ∧
     NoDup (names tys') ∧
     (typeName ∈ names tys →
        tys' = map (appendTypes_update typeName newMembers) tys ∧
        names tys' = names tys) ∧
     (typeName ∉ names tys →
        tys' = tys ++ [TypeEntry typeName (getUnique newMembers)])) ∧
  (∀ files w' r,
     mergeObjects files (Some (PackageObject (Some (PackageBody a v ty)))) w
       = (w', Normal r) →
     ∃ p, r = Some p ∧ NoDup (names (pkg_types p)) ∧
          NoDup (names (sorted_types engineOrder (pkg_types p)))).
Proof.
  intros tys Hnd. split.
  - exists (appendTypes typeName newMembers tys). split_and!.
    + done.
    + by apply appendTypes_names_NoDup.
    + intros Hin. rewrite appendTypes_present by done.
      by rewrite names_update.
    + intros Hnot. by apply appendTypes_absent.
  - intros files w' r Hrun. unfold mergeObjects in Hrun.
    destruct (mergeObjects_from_preserves (λ l, NoDup (names l))
                appendTypes_names_NoDup _ _ _ _ _ _ Hrun Hnd) as (p & -> & Hp).
    exists p. split_and!; [done..|]. by rewrite names_sorted_types.
Qed.

Lemma sortValues_types_same_groups tys1 tys2 :
  same_groups tys1 tys2 → sortValues_types tys1 ≡ₚ sortValues_types tys2.
Proof.
  intros (tys & Hperm & Hall). rewrite !sortValues_types_eq, Hperm.
  clear Hperm. induction Hall as [|t1 t2 l1 l2 [Hn Hm] _ IH]; simpl; [done|].
  rewrite IH. unfold sortValues_entry.
  by rewrite Hn, (sort_members_Permutation _ _ Hm).
Qed.

(** C5: on a manifest, that is groups with pairwise-distinct names, the
    normalisation step ([sortValues], then the sort of the groups by name
    and the forced version of [writeFiles]) applied to its own result
    returns it unchanged; and two manifests that hold the same groups and
    members in any order normalise to the same package.  (When two groups
    share a name the outcome of line 331 is the engine's.) *)
Theorem normalize_idempotent_order_independent
    (engineOrder : list typeEntry → list typeEntry)
    (a : list (string * string)) (v : json) (tys : list typeEntry) (w : world) :
  NoDup (names tys) →
  (∃ n, normalize engineOrder (Some (mkPackage a v tys)) w = (w, Normal n) ∧
        normalize engineOrder (Some n) w = (w, Normal n)) ∧
  (∀ tys', same_groups tys tys' →
     normalize engineOrder (Some (mkPackage a v tys)) w =
       normalize engineOrder (Some (mkPackage a v tys')) w).
Proof.
  intros Hnd. split.
  - eexists. split; [apply normalize_mkPackage|].
    rewrite normalize_mkPackage, sorted_types_idemp by done.
    by destruct (forcedVersion (config w)).
  - intros tys' Hsame. rewrite !normalize_mkPackage.
    assert (NoDup (names tys')) as Hnd'.
    { destruct Hsame as (l & Hperm & Hall).
      assert (names l = names tys') as <-.
      { clear Hperm. unfold names.
        induction Hall as [|t1 t2 l1 l2 [Hn _] _ IH]; simpl; [done|].
        by rewrite Hn, IH. }
      unfold names. by rewrite <-Hperm. }
    do 3 f_equal. rewrite !sorted_types_NoDup by done.
    apply sort_types_Permutation; [by rewrite names_sortValues|].
    by apply sortValues_types_same_groups.
Qed.

(** ** The result of the fold does not depend on the log *)

Lemma mergeObjects_type_result p thisType w w' :
  (mergeObjects_type p thisType w).2 = (mergeObjects_type p thisType w').2.
Proof.
  unfold mergeObjects_type. destruct (xml_members thisType); [|done].
  unfold bind, appendTypesToPackage. simpl. by destruct (Package p).
Qed.

Lemma forEachM_result tys p w w' :
  (forEachM mergeObjects_type tys p w).2 = (forEachM mergeObjects_type tys p w').2.
Proof.
  revert p w w'. induction tys as [|t tys IH]; intros p w w'; simpl; [done|].
  unfold bind. pose proof (mergeObjects_type_result p t w w') as Hstep.
  destruct (mergeObjects_type p t w) as [w1 c1],
    (mergeObjects_type p t w') as [w1' c1']. simpl in Hstep. subst c1'.
  destruct c1; [apply IH|done..].
Qed.

Lemma mergeObjects_from_result files i j acc w w' :
  (mergeObjects_from i files acc w).2 = (mergeObjects_from j files acc w').2.
Proof.
  revert i j acc w w'.
  induction files as [|f files IH]; intros i j acc w w'; simpl; [done|].
  unfold bind at 1 3. destruct (file_types f) as [tys|].
  - pose proof (forEachM_result tys (default (PackageObject None) acc) w w') as Hstep.
    destruct (forEachM mergeObjects_type tys _ w) as [w1 c1],
      (forEachM mergeObjects_type tys _ w') as [w1' c1']. simpl in Hstep. subst c1'.
    destruct c1; [apply IH|done..].
  - unfold bind. simpl. apply IH.
Qed.

Lemma mergeObjects_from_app files1 files2 i acc w :
  mergeObjects_from i (files1 ++ files2) acc w =
    match mergeObjects_from i files1 acc w with
    | (w1, Normal acc1) => mergeObjects_from (i + length files1) files2 acc1 w1
    | (w1, Throw e) => (w1, Throw e)
    | (w1, Exit c) => (w1, Exit c)
    end.
Proof.
  revert i acc w. induction files1 as [|f files1 IH]; intros i acc w.
  { simpl. by rewrite Nat.add_0_r. }
  cbn [app mergeObjects_from length].
  replace (i + S (length files1))%nat with (S i + length files1)%nat by lia.
  destruct (file_types f) as [tys|].
  - unfold bind at 1 2.
    destruct (forEachM mergeObjects_type tys _ w) as [w1 [p1| |]]; [|done..].
    apply IH.
  - unfold bind. simpl. apply IH.
Qed.




(** ** The CSV projection *)

Lemma append_cons (x : ascii) (a b : string) :
  String x a +:+ b = String x (a +:+ b).
Proof. done. Qed.

Lemma append_assoc (a b c : string) : (a +:+ b) +:+ c = a +:+ (b +:+ c).
Proof. induction a as [|x a IH]; [done|]. by rewrite !append_cons, IH. Qed.

Lemma append_nil_r (a : string) : a +:+ "" = a.
Proof. induction a as [|x a IH]; [done|]. by rewrite append_cons, IH. Qed.

Lemma str_concat_app l1 l2 : str_concat (l1 ++ l2) = str_concat l1 +:+ str_concat l2.
Proof.
  induction l1 as [|s l1 IH]; simpl; [done|]. by rewrite IH, append_assoc.
Qed.

Lemma csv_header_fold tys csvString colValues limit :
  fold_left csv_header_step tys (csvString, colValues, limit) =
    (csvString +:+ str_concat (map (λ t, name t +:+ ",") tys),
     colValues ++ map members tys,
     limit `max` rowLimit tys).
Proof.
  revert csvString colValues limit.
  induction tys as [|t tys IH]; intros s cols lim;
    cbn [fold_left csv_header_step map str_concat].
  { by rewrite append_nil_r, app_nil_r, Nat.max_0_r. }
  rewrite IH. f_equal; [f_equal|].
  - by rewrite append_assoc.
  - by rewrite <-app_assoc.
  - unfold rowLimit. simpl. destruct (Nat.ltb_spec lim (length (members t))); lia.
Qed.

Lemma csv_cell_step_eq index row col :
  csv_cell_step index row col = row +:+ (csv_cell col index +:+ ",").
Proof.
  unfold csv_cell_step, csv_cell.
  destruct (col !! index) as [v|]; [destruct (truthy v)|]; done.
Qed.

Lemma csv_cell_fold index cols row :
  fold_left (csv_cell_step index) cols row =
    row +:+ str_concat (map (λ col, csv_cell col index +:+ ",") cols).
Proof.
  revert row. induction cols as [|col cols IH]; intros row; simpl.
  { by rewrite append_nil_r. }
  by rewrite IH, csv_cell_step_eq, append_assoc.
Qed.

Lemma csv_row_fold cols indices csvString :
  fold_left (csv_row_step cols) indices csvString =
    csvString +:+
    str_concat (map (λ index, csv_line (map (λ col, csv_cell col index) cols)) indices).
Proof.
  revert csvString. induction indices as [|i indices IH]; intros s; simpl.
  { by rewrite append_nil_r. }
  rewrite IH. unfold csv_row_step. rewrite csv_cell_fold.
  rewrite append_assoc. unfold csv_line at 2. by rewrite map_map.
Qed.

(** The string the two loops build is the rendering of the table. *)
Lemma jsonToCSV_types_render tys :
  jsonToCSV_types tys = csv_render (names tys) (csv_table tys).
Proof.
  unfold jsonToCSV_types. rewrite csv_header_fold. simpl.
  rewrite csv_row_fold. unfold csv_render, csv_line at 2, names, csv_table.
  rewrite !map_map. f_equal. f_equal. apply map_ext. intros index.
  by rewrite map_map.
Qed.

Lemma rowLimit_ge tys t : t ∈ tys → length (members t) ≤ rowLimit tys.
Proof.
  unfold rowLimit. induction 1 as [t tys|t t' tys _ IH]; simpl; lia.
Qed.

Lemma csv_table_lookup tys i :
  i < rowLimit tys →
  csv_table tys !! i = Some (map (λ t, csv_cell (members t) i) tys).
Proof.
  intros Hi. unfold csv_table. rewrite list_lookup_fmap, lookup_seq_lt by done.
  done.
Qed.

(** C4 fails on a group whose first member is the empty string: the
    group has a member at row 0, and the cell of row 0 is the
    placeholder. *)
Lemma jsonToCSV_pads_empty_member :
  jsonToCSV_types [TypeEntry "ApexClass" [""; "Foo"]] =
    "ApexClass," +:+ CRLF +:+ placeholder +:+ "," +:+ CRLF +:+ "Foo," +:+ CRLF ∧
  spec_jsonToCSV [TypeEntry "ApexClass" [""; "Foo"]] =
    "ApexClass," +:+ CRLF +:+ "," +:+ CRLF +:+ "Foo," +:+ CRLF ∧
  ¬ csv_pads_short_groups_only.
Proof.
  split_and!; [done|done|].
  intros Hclaim.
  specialize (Hclaim [TypeEntry "ApexClass" [""; "Foo"]]).
  vm_compute in Hclaim. discriminate Hclaim.
Qed.

(** C4, amended: for every package, [jsonToCSV] returns the header line
    followed by exactly as many data rows as the longest group has
    members; row [i] has one field per group, holding the group's [i]-th
    member when there is one and it is not the empty string, and the
    empty quoted placeholder otherwise. *)
Theorem jsonToCSV_table (a : list (string * string)) (v : json)
    (tys : list typeEntry) (w : world) :
  jsonToCSV (mkPackage a v tys) w =
    (w, Normal (csv_render (names tys) (csv_table tys))) ∧
  length (csv_table tys) = max_list_with (λ t, length (members t)) tys ∧
  (∀ i, i < length (csv_table tys) →
     ∃ row, csv_table tys !! i = Some row ∧ length row = length tys ∧
       ∀ j t, tys !! j = Some t →
         row !! j = Some (match members t !! i with
                          | Some m => if decide (m = "") then placeholder else m
                          | None => placeholder
                          end)).
Proof.
  assert (length (csv_table tys) = rowLimit tys) as Hlen.
  { unfold csv_table. by rewrite length_map, length_seq. }
  split_and!.
  - unfold jsonToCSV. simpl. unfold ret. by rewrite jsonToCSV_types_render.
  - exact Hlen.
  - intros i Hi. rewrite Hlen in Hi.
    eexists. split_and!; [by apply csv_table_lookup|by rewrite length_map|].
    intros j t Ht. rewrite list_lookup_fmap, Ht. simpl. f_equal.
    unfold csv_cell. destruct (members t !! i) as [m|]; [|done].
    by destruct m.
Qed.

(** C10: a cell carries the member only when the member is truthy.  For
    a group whose [i]-th member is the empty string, the cell of row [i]
    in the text [jsonToCSV] returns is the empty quoted placeholder,
    although the group has an [i]-th member; a non-empty member appears
    verbatim. *)
Theorem jsonToCSV_falsy_member (a : list (string * string)) (v : json)
    (tys : list typeEntry) (w : world) (i j : nat) (t : typeEntry) (m : string) :
  tys !! j = Some t → members t !! i = Some m →
  ∃ row,
    jsonToCSV (mkPackage a v tys) w =
      (w, Normal (csv_render (names tys) (csv_table tys))) ∧
    csv_table tys !! i = Some row ∧
    (m = "" → row !! j = Some placeholder) ∧
    (m ≠ "" → row !! j = Some m) ∧
    ∀ rowText, csv_cell_step i rowText (members t) =
      rowText +:+ (if decide (m = "") then placeholder else m) +:+ ",".
Proof.
  intros Ht Hm.
  assert (i < rowLimit tys) as Hi.
  { apply lookup_lt_Some in Hm.
    pose proof (rowLimit_ge tys t (list_elem_of_lookup_2 _ _ _ Ht)). lia. }
  eexists. split_and!.
  - unfold jsonToCSV. simpl. unfold ret. by rewrite jsonToCSV_types_render.
  - by apply csv_table_lookup.
  - intros ->. rewrite list_lookup_fmap, Ht. simpl. unfold csv_cell.
    by rewrite Hm.
  - intros Hne. rewrite list_lookup_fmap, Ht. simpl. unfold csv_cell.
    rewrite Hm. by destruct m.
  - intros rowText. rewrite csv_cell_step_eq. unfold csv_cell. rewrite Hm.
    by destruct m.
Qed.

(** ** Exit codes *)

Lemma no_exit_ret {A} (a : A) : no_exit (ret a).
Proof. by intros w c. Qed.

Lemma no_exit_throw {A} e : no_exit (throw (A:=A) e).
Proof. by intros w c. Qed.

Lemma no_exit_log logItem printToScreen color : no_exit (log logItem printToScreen color).
Proof. by intros w c. Qed.

Lemma no_exit_get_config : no_exit get_config.
Proof. by intros w c. Qed.

Lemma no_exit_writeFileSync file data : no_exit (writeFileSync file data).
Proof. by intros w c. Qed.

Lemma no_exit_call {A} (f : external A) : no_exit (call f).
Proof. intros w c. unfold call. by destruct (f (disk w)) as [files [a|e]]. Qed.

Lemma no_exit_bind {A B} (m : M A) (k : A → M B) :
  no_exit m → (∀ a, no_exit (k a)) → no_exit (bind m k).
Proof.
  intros Hm Hk w c. unfold bind. specialize (Hm w).
  destruct (m w) as [w1 [a|e|c1]]; [apply Hk|done|by destruct (Hm c1)].
Qed.

Lemma no_exit_forEachM {A B} (f : A → B → M A) l a :
  (∀ a x, no_exit (f a x)) → no_exit (forEachM f l a).
Proof.
  intros Hf. revert a. induction l as [|x l IH]; intros a; simpl.
  - apply no_exit_ret.
  - apply no_exit_bind; [apply Hf | apply IH].
Qed.

Create HintDb no_exit.
#[local] Hint Resolve no_exit_ret no_exit_throw no_exit_log no_exit_get_config
  no_exit_writeFileSync no_exit_call : no_exit.

Lemma no_exit_appendTypesToPackage typeName newMembers p :
  no_exit (appendTypesToPackage typeName newMembers p).
Proof. unfold appendTypesToPackage. destruct (Package p); auto with no_exit. Qed.

Lemma no_exit_mergeObjects_type p thisType : no_exit (mergeObjects_type p thisType).
Proof.
  unfold mergeObjects_type. destruct (xml_members thisType); [|auto with no_exit].
  apply no_exit_bind; [auto with no_exit|]. intros _.
  apply no_exit_appendTypesToPackage.
Qed.

Lemma no_exit_mergeObjects_from index files acc :
  no_exit (mergeObjects_from index files acc).
Proof.
  revert index acc. induction files as [|f files IH]; intros index acc; simpl.
  - apply no_exit_ret.
  - apply no_exit_bind; [|intros; apply IH].
    destruct (file_types f).
    + apply no_exit_forEachM. intros. apply no_exit_mergeObjects_type.
    + apply no_exit_bind; auto with no_exit.
Qed.

Lemma no_exit_sortValues p : no_exit (sortValues p).
Proof.
  unfold sortValues. destruct p as [[[[a v [tys|]]|]]|]; simpl; auto with no_exit.
Qed.

Lemma no_exit_jsonToCSV p : no_exit (jsonToCSV p).
Proof. unfold jsonToCSV. destruct (Package p); auto with no_exit. Qed.

Lemma no_exit_writeFiles_objectData engineOrder cfg p :
  no_exit (writeFiles_objectData engineOrder cfg p).
Proof.
  unfold writeFiles_objectData.
  destruct p as [[[a v [tys|]]|]]; simpl; auto with no_exit.
Qed.

Lemma no_exit_buildMergedPackageFolder env rootFolder targetFolder :
  no_exit (buildMergedPackageFolder env rootFolder targetFolder).
Proof.
  unfold buildMergedPackageFolder.
  apply no_exit_bind; [auto with no_exit|]. intros _.
  apply no_exit_bind; [auto with no_exit|]. intros packageFolders.
  apply no_exit_bind; [|auto with no_exit].
  apply no_exit_forEachM. intros [] folderName.
  destruct (looseEqual _ _ _); [auto with no_exit|].
  repeat (apply no_exit_bind; [auto with no_exit|]; intros ?).
  auto with no_exit.
Qed.

Lemma no_exit_writeFiles env objectData filename :
  no_exit (writeFiles env objectData filename).
Proof.
  unfold writeFiles.
  apply no_exit_bind; [auto with no_exit|]. intros cfg.
  apply no_exit_bind; [apply no_exit_writeFiles_objectData|]. intros p.
  apply no_exit_bind; [auto with no_exit|]. intros _.
  apply no_exit_bind; [auto with no_exit|]. intros outputFolderExists.
  apply no_exit_bind; [destruct outputFolderExists; auto with no_exit|]. intros _.
  apply no_exit_bind; [auto with no_exit|]. intros _.
  apply no_exit_bind; [auto with no_exit|]. intros _.
  apply no_exit_bind; [apply no_exit_jsonToCSV|]. intros csv.
  apply no_exit_bind; [auto with no_exit|]. intros _.
  destruct (truthy_value _); [|auto with no_exit].
  apply no_exit_bind; [apply no_exit_buildMergedPackageFolder|]. intros _.
  auto with no_exit.
Qed.

(** [init] ends in [finish] or throws: it never returns. *)
Lemma init_merge_outcome (env : externals)
    (packageXmlData : list parsedFile) (w : world) :
  match (init_merge env packageXmlData w).2 with
  | Exit c => c = 1%Z
  | Throw _ => True
  | Normal _ => False
  end.
Proof.
  unfold init_merge, mergeObjects. unfold bind at 1.
  destruct (log "Finished reading files. Starting merge" None None w)
    as [w1 [[]|e|c]] eqn:Hlog; [|done..].
  unfold bind at 1.
  pose proof (no_exit_mergeObjects_from 0 packageXmlData
                (Some createPackageXmlTemplate) w1) as Hno.
  destruct (mergeObjects_from 0 packageXmlData (Some createPackageXmlTemplate) w1)
    as [w2 [r|e|c]]; cbn [snd] in Hno; [|done|by destruct (Hno c)].
  unfold bind at 1.
  pose proof (no_exit_sortValues r w2) as Hno2.
  destruct (sortValues r w2) as [w3 [p|e|c]]; cbn [snd] in Hno2;
    [|done|by destruct (Hno2 c)].
  unfold bind.
  pose proof (no_exit_writeFiles env p "package" w3) as Hno3.
  destruct (writeFiles env p "package" w3) as [w4 [[]|e|c]]; cbn [snd] in Hno3;
    [done|done|by destruct (Hno3 c)].
Qed.

Lemma run_script_exit_code (env : externals)
    (packageXmlData : list parsedFile) (w : world) :
  exit_code (run_script env packageXmlData w) = Some 1%Z.
Proof.
  pose proof (init_merge_outcome env packageXmlData w) as Hout.
  unfold run_script.
  destruct (init_merge env packageXmlData w) as [w1 [[]|e|c]];
    simpl in Hout; [done|done|by subst c].
Qed.

(** C8 does not hold of the code: a run that merges without error ends
    in [finish], which exits with code 1, and so does the handler of an
    uncaught exception.  Here: the run over no manifest at all and the
    run over a manifest with a group that has no members, whatever the
    file system does; the run over one manifest where every call into
    the file system succeeds, which ends in [finish]; and the run over
    the group without members, which ends in the handler. *)
Theorem success_and_failure_exit_alike (env : externals) :
  exit_code (run_script env [] (initial_world ∅)) = Some 1%Z ∧
  exit_code (run_script env
               [Some (XmlRoot (Some (XmlPackage (Some [XmlType (Some ["ApexClass"]) None]))))]
               (initial_world ∅)) = Some 1%Z ∧
  (init_merge (sample_externals (JSON_stringify env) (buildObject env) ["CS1"])
     [manifest_A] (initial_world ∅)).2 = Exit 1%Z ∧
  (init_merge env
     [Some (XmlRoot (Some (XmlPackage (Some [XmlType (Some ["ApexClass"]) None]))))]
     (initial_world ∅)).2 = Throw (TypeError_undefined "length") ∧
  (∀ w, exit_code (finish w) = Some 1%Z) ∧
  (∀ err w, exit_code (uncaughtException err w) = Some 1%Z).
Proof.
  split_and!; [apply run_script_exit_code|apply run_script_exit_code|done..].
Qed.

(** ** Configuration *)

(** C9: [loadConfig] has no return value: for every file name it either
    returns [undefined] or the read or the parse throws.  So the start-up
    merge [config = { ...config, ...loadedConfig }] leaves the built-in
    configuration as it is whatever the configuration file holds (and an
    exception leaves [config] untouched as well). *)
Theorem loadConfig_keeps_defaults (JSON_parse : string → option json)
    (fileName : string) (files : gmap string string) (w : world) :
  (loadConfig JSON_parse fileName w = (w, Normal None) ∨
   ∃ e, loadConfig JSON_parse fileName w = (w, Throw e)) ∧
  match files !! configFileName ≫= JSON_parse with
  | Some _ =>
      init_config JSON_parse (initial_world files) = (initial_world files, Normal ())
  | None =>
      ∃ e, init_config JSON_parse (initial_world files) = (initial_world files, Throw e)
  end ∧
  config (init_config JSON_parse (initial_world files)).1 = defaultConfig ∧
  config (init_config JSON_parse w).1 = config w.
Proof.
  assert (∀ w0, config (init_config JSON_parse w0).1 = config w0) as Hcfg.
  { intros w0. unfold init_config, bind, loadConfig, bind, readJSONFromFile.
    destruct (disk w0 !! configFileName) as [txt|]; [|done].
    destruct (JSON_parse txt); [|done]. simpl.
    unfold spread_merge, spread. by rewrite (left_id_L ∅ (∪)). }
  split_and!.
  - unfold loadConfig, bind, readJSONFromFile.
    destruct (disk w !! fileName) as [txt|]; [|by eauto].
    destruct (JSON_parse txt); by eauto.
  - unfold init_config, bind, loadConfig, bind, readJSONFromFile. simpl.
    destruct (files !! configFileName) as [txt|]; simpl; [|by eauto].
    destruct (JSON_parse txt); simpl; [|by eauto].
    unfold set_config, initial_world. simpl.
    unfold spread_merge, spread. by rewrite (left_id_L ∅ (∪)).
  - apply Hcfg.
  - apply Hcfg.
Qed.

(** ** The scenarios of the design document *)

Example getUnique_first_occurrence :
  getUnique ["Foo"; "Bar"; "Foo"; "Baz"; "Bar"] = ["Foo"; "Bar"; "Baz"].
Proof. reflexivity. Qed.

(** No source at all: zero groups and the configured version. *)
Example merge_no_source :
  (merge_and_normalize reverse [] (initial_world ∅)).2 =
    Normal (mkPackage [("xmlns", "http://soap.sforce.com/2006/04/metadata")]
                      (JNum 50) []).
Proof. reflexivity. Qed.

(** Groups of three members and of one: three rows, the short column
    padded in rows 2 and 3. *)
Example jsonToCSV_three_and_one :
  jsonToCSV_types [TypeEntry "ApexClass" ["A1"; "A2"; "A3"];
                   TypeEntry "ApexPage" ["P1"]] =
    "ApexClass,ApexPage," +:+ CRLF +:+
    "A1,P1," +:+ CRLF +:+
    "A2," +:+ placeholder +:+ "," +:+ CRLF +:+
    "A3," +:+ placeholder +:+ "," +:+ CRLF.
Proof. reflexivity. Qed.

(** A group without [members] stops the run with a TypeError. *)
Example merge_group_without_members :
  (mergeObjects [Some (XmlRoot (Some (XmlPackage (Some
                   [XmlType (Some ["ApexClass"]) None]))))]
     (Some createPackageXmlTemplate) (initial_world ∅)).2 =
    Throw (TypeError_undefined "length").
Proof. reflexivity. Qed.

(** ** Instances of the theorems on the sample inputs *)

Lemma manifest_A_wellFormed : wellFormed manifest_A.
Proof. eexists. split; [done|]. repeat constructor. by eexists. Qed.

Lemma manifest_B_wellFormed : wellFormed manifest_B.
Proof. eexists. split; [done|]. repeat constructor. by eexists. Qed.

(** C1 on the scenario of the design document: A then B, and B then A,
    both end in ApexClass with Bar, Baz, Foo. *)
Lemma merge_order_independent_witness :
  (merge_and_normalize reverse [manifest_A; manifest_B] (initial_world ∅)).2 =
    Normal (mkPackage [("xmlns", "http://soap.sforce.com/2006/04/metadata")]
                      (JNum 50) [TypeEntry "ApexClass" ["Bar"; "Baz"; "Foo"]]) ∧
  (merge_and_normalize reverse [manifest_B; manifest_A] (initial_world ∅)).2 =
    (merge_and_normalize reverse [manifest_A; manifest_B] (initial_world ∅)).2.
Proof.
  destruct (merge_order_independent reverse [manifest_A; manifest_B]
              [manifest_B; manifest_A] (initial_world ∅)) as (m & H1 & H2 & _).
  - repeat constructor; [apply manifest_A_wellFormed | apply manifest_B_wellFormed].
  - apply perm_swap.
  - split; [reflexivity|]. by rewrite H1, H2.
Defined.

(** C2 (amended) from the empty template: A and B both bring Bar. *)
Lemma merge_members_unique_witness :
  members_unique (pkg_types createPackageXmlTemplate) ∧
  ∃ w' p, mergeObjects [manifest_A; manifest_B] (Some createPackageXmlTemplate)
            (initial_world ∅) = (w', Normal (Some p)) ∧
          members_unique (pkg_types p).
Proof.
  assert (members_unique (pkg_types createPackageXmlTemplate)) as Hacc
    by constructor.
  split; [exact Hacc|].
  apply (proj2 (merge_members_unique createPackageXmlTemplate
                  [manifest_A; manifest_B] (initial_world ∅) Hacc)
           [("xmlns", "http://soap.sforce.com/2006/04/metadata")]
           (JArr [JStr "48.0"]) [] eq_refl).
  repeat constructor; [apply manifest_A_wellFormed | apply manifest_B_wellFormed].
Defined.

(** C3 on a package that already has ApexClass. *)
Lemma names_stay_distinct_witness :
  NoDup (names [TypeEntry "ApexClass" ["Foo"; "Bar"]]) ∧
  ∃ tys',
    appendTypesToPackage "ApexClass" ["Bar"; "Baz"]
      (mkPackage [] JNull [TypeEntry "ApexClass" ["Foo"; "Bar"]]) (initial_world ∅)
      = (initial_world ∅, Normal (mkPackage [] JNull tys')) ∧
    NoDup (names tys').
Proof.
  assert (NoDup (names [TypeEntry "ApexClass" ["Foo"; "Bar"]])) as Hnd.
  { apply NoDup_singleton. }
  split; [exact Hnd|].
  destruct (proj1 (names_stay_distinct reverse "ApexClass" ["Bar"; "Baz"] [] JNull
                     (Some [TypeEntry "ApexClass" ["Foo"; "Bar"]])
                     (initial_world ∅) Hnd)) as (tys' & Hrun & Hnd' & _).
  exists tys'. split; [exact Hrun | exact Hnd'].
Defined.

(** C4 (amended) on groups of three members and of one. *)
Lemma jsonToCSV_table_witness :
  length (csv_table [TypeEntry "ApexClass" ["Foo"; ""; "Bar"];
                     TypeEntry "ApexPage" ["Home"]]) = 3 ∧
  ∃ row, csv_table [TypeEntry "ApexClass" ["Foo"; ""; "Bar"];
                    TypeEntry "ApexPage" ["Home"]] !! 2 = Some row ∧
         length row = 2.
Proof.
  destruct (jsonToCSV_table [] JNull
              [TypeEntry "ApexClass" ["Foo"; ""; "Bar"];
               TypeEntry "ApexPage" ["Home"]] (initial_world ∅))
    as (_ & Hlen & Hrows).
  split; [exact Hlen|].
  destruct (Hrows 2) as (row & Hrow & Hwidth & _).
  - rewrite Hlen. simpl. lia.
  - exists row. split; [exact Hrow | exact Hwidth].
Defined.

(** C5 on two arrangements of the same two groups. *)
Lemma normalize_idempotent_order_independent_witness :
  NoDup (names [TypeEntry "ApexPage" ["Home"]; TypeEntry "ApexClass" ["Foo"; "Bar"]]) ∧
  (∃ n, normalize reverse (Some (mkPackage [] JNull
          [TypeEntry "ApexPage" ["Home"]; TypeEntry "ApexClass" ["Foo"; "Bar"]]))
          (initial_world ∅) = (initial_world ∅, Normal n) ∧
        normalize reverse (Some n) (initial_world ∅) = (initial_world ∅, Normal n)) ∧
  normalize reverse (Some (mkPackage [] JNull
     [TypeEntry "ApexPage" ["Home"]; TypeEntry "ApexClass" ["Foo"; "Bar"]]))
    (initial_world ∅) =
  normalize reverse (Some (mkPackage [] JNull
     [TypeEntry "ApexClass" ["Bar"; "Foo"]; TypeEntry "ApexPage" ["Home"]]))
    (initial_world ∅).
Proof.
  assert (NoDup (names [TypeEntry "ApexPage" ["Home"];
                        TypeEntry "ApexClass" ["Foo"; "Bar"]])) as Hnd.
  { apply NoDup_cons_2; [|apply NoDup_singleton].
    intros Hin%list_elem_of_singleton. discriminate Hin. }
  split; [exact Hnd|].
  destruct (normalize_idempotent_order_independent reverse [] JNull
     [TypeEntry "ApexPage" ["Home"]; TypeEntry "ApexClass" ["Foo"; "Bar"]]
     (initial_world ∅) Hnd) as [Hidem Horder].
  split; [exact Hidem|].
  apply Horder.
  exists [TypeEntry "ApexClass" ["Foo"; "Bar"]; TypeEntry "ApexPage" ["Home"]].
  split; [apply perm_swap|].
  repeat constructor.
Defined.


(** C10 on a group whose second member is the empty string. *)
Lemma jsonToCSV_falsy_member_witness :
  ∃ row, csv_table [TypeEntry "ApexClass" ["Foo"; ""; "Bar"];
                    TypeEntry "ApexPage" ["Home"]] !! 1 = Some row ∧
         row !! 0 = Some placeholder.
Proof.
  destruct (jsonToCSV_falsy_member [] JNull
              [TypeEntry "ApexClass" ["Foo"; ""; "Bar"];
               TypeEntry "ApexPage" ["Home"]] (initial_world ∅)
              1 0 (TypeEntry "ApexClass" ["Foo"; ""; "Bar"]) ""
              eq_refl eq_refl) as (row & _ & Hrow & Hcell & _).
  exists row. split; [exact Hrow | exact (Hcell eq_refl)].
Defined.

(** * Further properties of the code *)

(** ** [getUnique] again *)

Lemma getUnique_step_present u x : x ∈ u → getUnique_step u x = u.
Proof.
  intros Hx%existsb_eqb_elem_of. unfold getUnique_step. by rewrite Hx.
Qed.

Lemma getUnique_step_absent u x : x ∉ u → getUnique_step u x = u ++ [x].
Proof.
  intros Hx. unfold getUnique_step.
  destruct (existsb (String.eqb x) u) eqn:Hex; [|done].
  by apply existsb_eqb_elem_of in Hex.
Qed.

Lemma getUnique_fold_absorb l u : l ⊆ u → fold_left getUnique_step l u = u.
Proof.
  induction l as [|x l IH]; intros Hsub; simpl; [done|].
  rewrite getUnique_step_present by set_solver. apply IH. set_solver.
Qed.

Lemma getUnique_fold_fresh l u :
  NoDup (u ++ l) → fold_left getUnique_step l u = u ++ l.
Proof.
  revert u. induction l as [|x l IH]; intros u Hnd; simpl.
  { by rewrite app_nil_r. }
  rewrite getUnique_step_absent.
  - rewrite IH; rewrite <-app_assoc; done.
  - apply NoDup_app in Hnd as (_ & Hdisj & _). intros Hx.
    apply (Hdisj x Hx). by left.
Qed.

Lemma getUnique_fold_sublist l u :
  ∃ k, fold_left getUnique_step l u = u ++ k ∧ sublist k l.
Proof.
  revert u. induction l as [|x l IH]; intros u; simpl.
  { exists []. by rewrite app_nil_r. }
  destruct (decide (x ∈ u)) as [Hx|Hx].
  - rewrite getUnique_step_present by done.
    destruct (IH u) as (k & -> & Hk). exists k. split; [done|].
    by apply sublist_cons.
  - rewrite getUnique_step_absent by done.
    destruct (IH (u ++ [x])) as (k & -> & Hk). exists (x :: k).
    rewrite <-app_assoc. split; [done|]. by apply sublist_skip.
Qed.

Lemma getUnique_fold_filter l u :
  fold_left getUnique_step l u =
    u ++ fold_left getUnique_step (filter (λ y, y ∉ u) l) [].
Proof.
  remember (length l) as n eqn:Hn. revert l u Hn.
  induction n as [n IH] using lt_wf_ind. intros [|x l] u Hn; simpl.
  { by rewrite app_nil_r. }
  simpl in Hn. destruct (decide (x ∈ u)) as [Hx|Hx].
  - rewrite getUnique_step_present by done.
    rewrite filter_cons_False by (intros Hnot; by apply Hnot).
    apply (IH (length l)); [lia|done].
  - rewrite getUnique_step_absent by done.
    rewrite filter_cons_True by done. simpl.
    rewrite getUnique_step_absent by (by intros ?%elem_of_nil). simpl.
    rewrite (IH (length l) ltac:(lia) l (u ++ [x]) eq_refl).
    pose proof (length_filter (λ y, y ∉ u) l) as Hlen.
    rewrite (IH (length (filter (λ y, y ∉ u) l)) ltac:(lia) _ [x] eq_refl).
    rewrite <-app_assoc. simpl. do 3 f_equal.
    rewrite list_filter_filter. apply list_filter_iff.
    intros y. rewrite elem_of_app, list_elem_of_singleton. tauto.
Qed.

Lemma getUnique_app l1 l2 :
  getUnique (l1 ++ l2) = fold_left getUnique_step l2 (getUnique l1).
Proof. unfold getUnique. apply fold_left_app. Qed.

Lemma getUnique_NoDup_id l : NoDup l → getUnique l = l.
Proof. intros Hnd. unfold getUnique. by rewrite getUnique_fold_fresh. Qed.

Lemma getUnique_getUnique_app l1 l2 :
  getUnique (getUnique l1 ++ l2) = getUnique (l1 ++ l2).
Proof.
  rewrite !getUnique_app. f_equal. apply getUnique_NoDup_id, getUnique_NoDup.
Qed.

(** X1: [getUnique] keeps the first occurrence of every value, in the
    order of the array: the head stays in front, and the rest is the
    de-duplication of what differs from it.  The result is a
    subsequence of the array, it is the array itself exactly when the
    array has no repeated value, and a second pass changes nothing. *)
Theorem getUnique_first_occurrences (l : list string) :
  (∀ x l', getUnique (x :: l') = x :: getUnique (filter (λ y, y ≠ x) l')) ∧
  sublist (getUnique l) l ∧
  (getUnique l = l ↔ NoDup l) ∧
  getUnique (getUnique l) = getUnique l.
Proof.
  split_and!.
  - intros x l'. unfold getUnique. simpl.
    rewrite getUnique_step_absent by (by intros ?%elem_of_nil). simpl.
    rewrite getUnique_fold_filter. simpl. do 2 f_equal.
    apply list_filter_iff. intros y. rewrite list_elem_of_singleton. tauto.
  - unfold getUnique. by destruct (getUnique_fold_sublist l []) as (k & -> & Hk).
  - split; [intros <-; apply getUnique_NoDup | apply getUnique_NoDup_id].
  - apply getUnique_NoDup_id, getUnique_NoDup.
Qed.

(** ** Contributions to one group *)

Lemma map_update_update typeName ms1 ms2 tys :
  map (appendTypes_update typeName ms2) (map (appendTypes_update typeName ms1) tys) =
  map (appendTypes_update typeName (ms1 ++ ms2)) tys.
Proof.
  rewrite map_map. apply map_ext. intros t. unfold appendTypes_update.
  destruct (String.eqb (name t) typeName) eqn:Heq; simpl; rewrite Heq; [|done].
  by rewrite getUnique_getUnique_app, <-app_assoc.
Qed.

Lemma appendTypes_names_present typeName newMembers tys :
  typeName ∈ names (appendTypes typeName newMembers tys).
Proof. apply appendTypes_elem_of_names. by right. Qed.

Lemma appendTypes_twice typeName ms1 ms2 tys :
  appendTypes typeName ms2 (appendTypes typeName ms1 tys) =
  appendTypes typeName (ms1 ++ ms2) tys.
Proof.
  rewrite (appendTypes_present typeName ms2) by apply appendTypes_names_present.
  destruct (decide (typeName ∈ names tys)) as [Hin|Hnot].
  - rewrite !appendTypes_present by done. apply map_update_update.
  - rewrite !appendTypes_absent by done. rewrite map_app, update_absent by done.
    simpl. unfold appendTypes_update. simpl. rewrite String.eqb_refl.
    by rewrite getUnique_getUnique_app.
Qed.

(** X2: two contributions to the same group, one after the other, leave
    the package exactly as the single contribution of their
    concatenation does, whether the group was there before or not. *)
Theorem appendTypes_twice_is_concat (typeName : string) (ms1 ms2 : list string)
    (a : list (string * string)) (v : json) (ty : option (list typeEntry)) (w : world) :
  (let! p := appendTypesToPackage typeName ms1 (PackageObject (Some (PackageBody a v ty))) in
   appendTypesToPackage typeName ms2 p) w =
  appendTypesToPackage typeName (ms1 ++ ms2) (PackageObject (Some (PackageBody a v ty))) w.
Proof.
  unfold bind, appendTypesToPackage, ret. simpl.
  by rewrite appendTypes_twice.
Qed.

(** ** Merging what is already there *)

Lemma update_absorbed typeName newMembers tys :
  Forall (λ t, name t = typeName → NoDup (members t) ∧ newMembers ⊆ members t) tys →
  map (appendTypes_update typeName newMembers) tys = tys.
Proof.
  induction 1 as [|t tys Ht _ IH]; simpl; [done|]. rewrite IH. f_equal.
  unfold appendTypes_update.
  destruct (String.eqb (name t) typeName) eqn:Heq; [|done].
  apply String.eqb_eq in Heq. destruct (Ht Heq) as [Hnd Hsub].
  destruct t as [n ms]. simpl in *. f_equal.
  rewrite getUnique_app, getUnique_NoDup_id by done.
  by apply getUnique_fold_absorb.
Qed.

Lemma appendTypes_absorbed typeName newMembers tys :
  absorbed tys typeName newMembers → appendTypes typeName newMembers tys = tys.
Proof.
  intros [Hin Hall]. rewrite appendTypes_present by done.
  by apply update_absorbed.
Qed.

Lemma absorbed_appendTypes typeName newMembers tys :
  absorbed (appendTypes typeName newMembers tys) typeName newMembers.
Proof.
  split; [apply appendTypes_names_present|].
  destruct (decide (typeName ∈ names tys)) as [Hin|Hnot].
  - rewrite appendTypes_present by done. apply Forall_fmap, Forall_true.
    intros t. simpl. unfold appendTypes_update.
    destruct (String.eqb (name t) typeName) eqn:Heq; simpl.
    + intros _. split; [apply getUnique_NoDup|].
      intros x Hx. apply getUnique_elem_of, elem_of_app. by right.
    + intros Hn. apply String.eqb_neq in Heq. done.
  - rewrite appendTypes_absent by done. apply Forall_app. split.
    + apply Forall_forall. intros t Ht Hn. destruct Hnot. rewrite <-Hn.
      by apply list_elem_of_fmap_2.
    + constructor; [|constructor]. simpl. intros _.
      split; [apply getUnique_NoDup|]. intros x Hx. by apply getUnique_elem_of.
Qed.

Lemma absorbed_preserved n ms typeName newMembers tys :
  absorbed tys n ms → absorbed (appendTypes typeName newMembers tys) n ms.
Proof.
  intros [Hin Hall]. split.
  { apply appendTypes_elem_of_names. by left. }
  destruct (decide (typeName ∈ names tys)) as [Hin'|Hnot].
  - rewrite appendTypes_present by done. apply Forall_fmap.
    eapply Forall_impl; [exact Hall|]. intros t Ht. simpl.
    rewrite appendTypes_update_name. intros Hn. destruct (Ht Hn) as [Hnd Hsub].
    unfold appendTypes_update. destruct (String.eqb (name t) typeName); [|done].
    simpl. split; [apply getUnique_NoDup|].
    intros x Hx. apply getUnique_elem_of, elem_of_app. left. by apply Hsub.
  - rewrite appendTypes_absent by done. apply Forall_app. split; [done|].
    constructor; [|constructor]. simpl. intros ->. done.
Qed.

Lemma merge_entries_absorbed es tys :
  Forall (λ e, absorbed tys e.1 e.2) es → merge_entries es tys = tys.
Proof.
  induction 1 as [|e es He _ IH]; simpl; [done|].
  by rewrite appendTypes_absorbed.
Qed.

Lemma merge_entries_absorbs_preserved es n ms tys :
  absorbed tys n ms → absorbed (merge_entries es tys) n ms.
Proof.
  revert tys. induction es as [|e es IH]; intros tys Habs; simpl; [done|].
  by apply IH, absorbed_preserved.
Qed.

Lemma merge_entries_absorbs es tys :
  Forall (λ e, absorbed (merge_entries es tys) e.1 e.2) es.
Proof.
  revert tys. induction es as [|e es IH]; intros tys; simpl; constructor.
  - apply merge_entries_absorbs_preserved, absorbed_appendTypes.
  - apply IH.
Qed.

Lemma file_entries_subseteq files files' :
  files' ⊆ files → files' ≫= file_entries ⊆ files ≫= file_entries.
Proof.
  intros Hsub e (f & He & Hf)%list_elem_of_bind.
  apply list_elem_of_bind. exists f. split; [done|]. by apply Hsub.
Qed.

(** X3: merging again files that were merged already changes nothing:
    for well-formed files, and further files each of which is one of
    them, the package [mergeObjects] returns for all of them is the one
    it returns for the first ones alone (in particular for the same
    files twice). *)
Theorem merge_again_changes_nothing (files files' : list parsedFile)
    (a : list (string * string)) (v : json) (tys : list typeEntry) (w : world) :
  Forall wellFormed files → files' ⊆ files →
  (mergeObjects (files ++ files') (Some (mkPackage a v tys)) w).2 =
  (mergeObjects files (Some (mkPackage a v tys)) w).2.
Proof.
  intros Hwf Hsub.
  assert (Forall wellFormed (files ++ files')) as Hwf'.
  { apply Forall_app. split; [done|]. apply Forall_forall. intros f Hf.
    by apply (proj1 (Forall_forall _ _) Hwf), Hsub. }
  unfold mergeObjects.
  destruct (mergeObjects_from_ok 0 files a v tys w Hwf) as (w1 & -> & _).
  destruct (mergeObjects_from_ok 0 (files ++ files') a v tys w Hwf') as (w2 & -> & _).
  simpl. do 3 f_equal. rewrite bind_app, merge_entries_app.
  apply merge_entries_absorbed.
  apply Forall_forall. intros e He%(file_entries_subseteq files files' Hsub).
  by apply (proj1 (Forall_forall _ _) (merge_entries_absorbs _ tys)).
Qed.

(** ** What the fold leaves alone *)

Lemma only_logs_refl w : only_logs w w.
Proof. by split_and!. Qed.

Lemma only_logs_trans w1 w2 w3 : only_logs w1 w2 → only_logs w2 w3 → only_logs w1 w3.
Proof.
  intros (Hc1 & Hd1 & Hp1 & Hl1) (Hc2 & Hd2 & Hp2 & Hl2).
  split_and!; [congruence|congruence|by etrans|by etrans].
Qed.

Lemma only_logs_log logItem printToScreen color w :
  only_logs w (log logItem printToScreen color w).1.
Proof.
  unfold log. simpl. split_and!; [done|done| |by apply prefix_app_r].
  destruct (default true printToScreen); [by apply prefix_app_r|done].
Qed.

Lemma only_logs_bind {A B} (m : M A) (k : A → M B) w :
  only_logs w (m w).1 → (∀ a w1, only_logs w1 (k a w1).1) →
  only_logs w (bind m k w).1.
Proof.
  intros Hm Hk. unfold bind. destruct (m w) as [w1 [x| |]]; simpl in *; [|done..].
  eapply only_logs_trans; [exact Hm|apply Hk].
Qed.

Lemma only_logs_appendTypesToPackage typeName newMembers p w :
  only_logs w (appendTypesToPackage typeName newMembers p w).1.
Proof.
  unfold appendTypesToPackage. destruct (Package p); apply only_logs_refl.
Qed.

Lemma only_logs_mergeObjects_type p thisType w :
  only_logs w (mergeObjects_type p thisType w).1.
Proof.
  unfold mergeObjects_type. destruct (xml_members thisType); [|apply only_logs_refl].
  apply only_logs_bind; [apply only_logs_log|].
  intros. apply only_logs_appendTypesToPackage.
Qed.

Lemma only_logs_forEachM tys p w :
  only_logs w (forEachM mergeObjects_type tys p w).1.
Proof.
  revert p w. induction tys as [|t tys IH]; intros p w; simpl.
  { apply only_logs_refl. }
  apply only_logs_bind; [apply only_logs_mergeObjects_type|]. intros. apply IH.
Qed.

Lemma only_logs_mergeObjects_from index files acc w :
  only_logs w (mergeObjects_from index files acc w).1.
Proof.
  revert index acc w. induction files as [|f files IH]; intros index acc w; simpl.
  { apply only_logs_refl. }
  apply only_logs_bind; [|intros; apply IH].
  destruct (file_types f); [apply only_logs_forEachM|].
  apply only_logs_bind; [apply only_logs_log|]. intros. apply only_logs_refl.
Qed.

(** X4: [mergeObjects] touches nothing but the log: whatever the files
    and the accumulator, and also when it throws, the configuration and
    the files on disk are as before, and the console and [log.txt] have
    only grown. *)
Theorem mergeObjects_only_logs (files : list parsedFile)
    (acc : option packageObject) (w : world) :
  only_logs w (mergeObjects files acc w).1.
Proof. apply only_logs_mergeObjects_from. Qed.

(** X5: [mergeObjects] never removes anything: when it returns, the
    groups the accumulator had are still there, in the same positions
    (new groups come after them), and every member a group had is still
    a member of it. *)
Theorem mergeObjects_never_removes (files : list parsedFile)
    (acc : packageObject) (w w' : world) (r : option packageObject) :
  mergeObjects files (Some acc) w = (w', Normal r) →
  ∃ p, r = Some p ∧
       names (pkg_types acc) `prefix_of` names (pkg_types p) ∧
       ∀ n m, holds (pkg_types acc) n m → holds (pkg_types p) n m.
Proof.
  intros Hrun. unfold mergeObjects in Hrun.
  eapply (mergeObjects_from_preserves
            (λ tys, names (pkg_types acc) `prefix_of` names tys ∧
                    ∀ n m, holds (pkg_types acc) n m → holds tys n m));
    [|exact Hrun|done].
  intros typeName newMembers tys [Hpre Hholds]. split.
  - etrans; [exact Hpre|].
    destruct (decide (typeName ∈ names tys)) as [Hin|Hnot].
    + by rewrite appendTypes_present, names_update.
    + rewrite appendTypes_absent by done. unfold names. rewrite map_app.
      by apply prefix_app_r.
  - intros n m Hnm. apply appendTypes_holds. left. by apply Hholds.
Qed.

(** X5 on an accumulator that has ApexClass with Foo, and manifest B. *)
Lemma mergeObjects_never_removes_witness :
  ∃ p, Some (mkPackage [] JNull [TypeEntry "ApexClass" ["Foo"; "Bar"; "Baz"]]) = Some p ∧
       names (pkg_types (mkPackage [] JNull [TypeEntry "ApexClass" ["Foo"]]))
         `prefix_of` names (pkg_types p) ∧
       ∀ n m, holds (pkg_types (mkPackage [] JNull [TypeEntry "ApexClass" ["Foo"]])) n m →
              holds (pkg_types p) n m.
Proof.
  exact (mergeObjects_never_removes [manifest_B]
           (mkPackage [] JNull [TypeEntry "ApexClass" ["Foo"]])
           (initial_world ∅)
           (mergeObjects [manifest_B]
              (Some (mkPackage [] JNull [TypeEntry "ApexClass" ["Foo"]]))
              (initial_world ∅)).1
           (Some (mkPackage [] JNull [TypeEntry "ApexClass" ["Foo"; "Bar"; "Baz"]]))
           eq_refl).
Defined.

(** X3 on the two sample manifests, with A merged once more. *)
Lemma merge_again_changes_nothing_witness :
  (mergeObjects ([manifest_A; manifest_B] ++ [manifest_A])
     (Some (mkPackage [] JNull [])) (initial_world ∅)).2 =
  (mergeObjects [manifest_A; manifest_B]
     (Some (mkPackage [] JNull [])) (initial_world ∅)).2.
Proof.
  apply (merge_again_changes_nothing [manifest_A; manifest_B] [manifest_A]).
  - repeat constructor; [apply manifest_A_wellFormed | apply manifest_B_wellFormed].
  - intros f ->%list_elem_of_singleton. by left.
Defined.

(** ** When the fold throws *)






(** ** An accumulator without [Package] *)




(** X8: merging a list of files at once is merging its first part and
    then, into what that returned, its second part; an exception in the
    first part is the outcome of the whole. *)
Theorem mergeObjects_app (files1 files2 : list parsedFile)
    (acc : option packageObject) (w : world) :
  (mergeObjects (files1 ++ files2) acc w).2 =
    match mergeObjects files1 acc w with
    | (w1, Normal r) => (mergeObjects files2 r w1).2
    | (_, Throw e) => Throw e
    | (_, Exit c) => Exit c
    end.
Proof.
  unfold mergeObjects. rewrite mergeObjects_from_app.
  destruct (mergeObjects_from 0 files1 acc w) as [w1 [r| |]]; [|done..].
  apply mergeObjects_from_result.
Qed.

(** ** [sortValues] again *)

(** X9: [sortValues] sorts inside the groups only: the groups stay in
    their order under their names, and each keeps its members as they
    were counted (a repeated member stays repeated), now in ascending
    order.  On an accumulator that is [undefined], or has no [Package],
    or no [types], it throws a TypeError. *)
Theorem sortValues_keeps_groups (a : list (string * string)) (v : json)
    (tys : list typeEntry) (w : world) :
  (∃ tys', sortValues (Some (mkPackage a v tys)) w = (w, Normal (mkPackage a v tys')) ∧
           Forall2 (λ t t', name t' = name t ∧ members t' ≡ₚ members t ∧
                            Sorted str_le (members t')) tys tys') ∧
  sortValues None w = (w, Throw (TypeError_undefined "Package")) ∧
  sortValues (Some (PackageObject None)) w = (w, Throw (TypeError_undefined "types")) ∧
  sortValues (Some (PackageObject (Some (PackageBody a v None)))) w =
    (w, Throw (TypeError_undefined "forEach")).
Proof.
  split_and!; [|done..].
  exists (sortValues_types tys). split; [done|].
  rewrite sortValues_types_eq. apply Forall2_fmap_r, Forall_Forall2_diag, Forall_true.
  intros t. simpl. split_and!; [done|apply array_sort_Permutation|].
  eapply Sorted_iff; [apply before_sortCompare|]. apply array_sort_Sorted, _.
Qed.

(** ** What the CSV cannot tell apart *)

Lemma csv_cell_pad ms k i : csv_cell (ms ++ replicate k "") i = csv_cell ms i.
Proof.
  unfold csv_cell. destruct (decide (i < length ms)) as [Hi|Hi].
  - by rewrite lookup_app_l.
  - rewrite lookup_app_r, (lookup_ge_None_2 ms i) by lia.
    destruct (replicate k "" !! (i - length ms)) as [x|] eqn:Hx; [|done].
    apply lookup_replicate in Hx as [-> _]. done.
Qed.

Lemma rowLimit_constant n tys :
  tys ≠ [] → Forall (λ t, length (members t) = n) tys → rowLimit tys = n.
Proof.
  unfold rowLimit. intros Hne Hall.
  induction Hall as [|t tys Ht Hall IH]; [done|]. simpl.
  destruct tys as [|t' tys]; [simpl; lia|]. rewrite IH by done. lia.
Qed.

Lemma rowLimit_pad tys : rowLimit (map (pad_group (rowLimit tys)) tys) = rowLimit tys.
Proof.
  destruct (decide (tys = [])) as [->|Hne]; [done|].
  apply rowLimit_constant; [by destruct tys|]. apply Forall_fmap, Forall_forall.
  intros t Ht. pose proof (rowLimit_ge tys t Ht) as Hle.
  change (length (members t ++ replicate (rowLimit tys - length (members t)) "")
          = rowLimit tys).
  rewrite length_app, length_replicate. lia.
Qed.

(** X10: the CSV does not tell a missing member from an empty one:
    filling every group up with empty strings to the length of the
    longest group gives the very same text. *)
Theorem jsonToCSV_padding_invisible (a : list (string * string)) (v : json)
    (tys : list typeEntry) (w : world) :
  jsonToCSV (mkPackage a v (map (pad_group (rowLimit tys)) tys)) w =
  jsonToCSV (mkPackage a v tys) w.
Proof.
  unfold jsonToCSV. simpl. unfold ret. do 2 f_equal.
  rewrite !jsonToCSV_types_render. f_equal.
  - unfold names. rewrite map_map. done.
  - unfold csv_table. rewrite rowLimit_pad. apply map_ext. intros i.
    rewrite map_map. apply map_ext. intros t. simpl. apply csv_cell_pad.
Qed.

(** ** The files [writeFiles] leaves *)


Lemma bind_Normal_inv {A B} (m : M A) (k : A → M B) w w' b :
  bind m k w = (w', Normal b) →
  ∃ w1 a, m w = (w1, Normal a) ∧ k a w1 = (w', Normal b).
Proof.
  unfold bind. destruct (m w) as [w1 [a|e|c]]; [|done..]. eauto.
Qed.

Lemma keeps_config_ret {A} (a : A) : keeps_config (ret a).
Proof. by intros w. Qed.

Lemma keeps_config_log logItem printToScreen color :
  keeps_config (log logItem printToScreen color).
Proof. by intros w. Qed.

Lemma keeps_config_writeFileSync file data : keeps_config (writeFileSync file data).
Proof. by intros w. Qed.

Lemma keeps_config_call {A} (f : external A) : keeps_config (call f).
Proof. intros w. unfold call. by destruct (f (disk w)). Qed.

Lemma keeps_config_bind {A B} (m : M A) (k : A → M B) :
  keeps_config m → (∀ a, keeps_config (k a)) → keeps_config (bind m k).
Proof.
  intros Hm Hk w. unfold bind. specialize (Hm w).
  destruct (m w) as [w1 [a|e|c]]; [|done..].
  simpl in Hm. by rewrite Hk.
Qed.

Lemma keeps_config_forEachM {A B} (f : A → B → M A) l a :
  (∀ a x, keeps_config (f a x)) → keeps_config (forEachM f l a).
Proof.
  intros Hf. revert a. induction l as [|x l IH]; intros a; simpl.
  - apply keeps_config_ret.
  - apply keeps_config_bind; [apply Hf | apply IH].
Qed.

Create HintDb keeps_config.
#[local] Hint Resolve keeps_config_ret keeps_config_log keeps_config_writeFileSync
  keeps_config_call : keeps_config.

Lemma keeps_config_buildMergedPackageFolder env rootFolder targetFolder :
  keeps_config (buildMergedPackageFolder env rootFolder targetFolder).
Proof.
  unfold buildMergedPackageFolder.
  apply keeps_config_bind; [auto with keeps_config|]. intros _.
  apply keeps_config_bind; [auto with keeps_config|]. intros packageFolders.
  apply keeps_config_bind; [|auto with keeps_config].
  apply keeps_config_forEachM. intros [] folderName.
  destruct (looseEqual _ _ _); [auto with keeps_config|].
  repeat (apply keeps_config_bind; [auto with keeps_config|]; intros ?).
  auto with keeps_config.
Qed.

Lemma keeps_config_run {A} (m : M A) w w' r :
  keeps_config m → m w = (w', r) → config w' = config w.
Proof. intros Hm Hrun. specialize (Hm w). by rewrite Hrun in Hm. Qed.

(** With [createMergedPackage] truthy the last thing [writeFiles] does
    is to write the XML text into the merged folder. *)
Lemma writeFiles_merged_manifest env a v tys filename w w' :
  truthy_value (config w !! "createMergedPackage") = true →
  writeFiles env (mkPackage a v tys) filename w = (w', Normal ()) →
  disk w' !! (templateValue (config w !! "rootFolder") +:+ "\"
                +:+ templateValue (config w !! "mergedPackageFolder")
                +:+ "\package.xml") =
    Some (buildObject env
            (mkPackage a (default v (forcedVersion (config w)))
                       (sortTypes (engineOrder env) tys))) ∧
  config w' = config w.
Proof.
  intros Hon. unfold writeFiles.
  intros (w0 & cfg & Hcfg & Hrun)%bind_Normal_inv. injection Hcfg as <- <-.
  apply bind_Normal_inv in Hrun as (w0 & p & Hp & Hrun). injection Hp as <- <-.
  apply bind_Normal_inv in Hrun as (w1 & [] & Hlog & Hrun).
  apply bind_Normal_inv in Hrun as (w2 & ex & Hex & Hrun).
  apply bind_Normal_inv in Hrun as (w3 & [] & Hmk & Hrun).
  apply bind_Normal_inv in Hrun as (w4 & [] & H4 & Hrun).
  apply bind_Normal_inv in Hrun as (w5 & [] & H5 & Hrun).
  apply bind_Normal_inv in Hrun as (w6 & csv & H6 & Hrun).
  apply bind_Normal_inv in Hrun as (w7 & [] & H7 & Hrun).
  rewrite Hon in Hrun.
  apply bind_Normal_inv in Hrun as (w8 & r & Hbuild & Hlast).
  apply keeps_config_run in Hlog; [|apply keeps_config_log].
  apply keeps_config_run in Hex; [|apply keeps_config_call].
  apply keeps_config_run in Hmk;
    [|destruct ex; [apply keeps_config_ret | apply keeps_config_call]].
  apply keeps_config_run in H4; [|apply keeps_config_writeFileSync].
  apply keeps_config_run in H5; [|apply keeps_config_writeFileSync].
  injection H6 as <- _.
  apply keeps_config_run in H7; [|apply keeps_config_writeFileSync].
  apply keeps_config_run in Hbuild; [|apply keeps_config_buildMergedPackageFolder].
  injection Hlast as <-. simpl. split; [by rewrite lookup_insert_eq|].
  congruence.
Qed.



(** ** How a run ends *)

(** X12: every run of the merge pipeline ends in [process.exit(1)]:
    either it reaches [finish], or an exception reaches the handler; it
    never returns, and no other exit code is ever used. *)
Theorem run_script_always_exits_1 (env : externals)
    (packageXmlData : list parsedFile) (w : world) :
  exit_code (run_script env packageXmlData w) = Some 1%Z ∧
  ((init_merge env packageXmlData w).2 = Exit 1%Z ∨
   ∃ e, (init_merge env packageXmlData w).2 = Throw e).
Proof.
  pose proof (init_merge_outcome env packageXmlData w) as Hout.
  unfold run_script.
  destruct (init_merge env packageXmlData w) as [w1 [[]|e|c]];
    simpl in Hout; [done| |subst c].
  - split; [done|]. right. by exists e.
  - split; [done|]. by left.
Qed.

(** ** The file of change set names *)



(** ** The links of the change set page *)

Lemma parse_links_fold (links : list (string * option string)) packageNames w :
  (forEachM
     (λ packageNames link,
        if isChangeSetLink link.1 link.2 then
          log ("Found change set with name: " +:+ link.1) None None >>
          ret (packageNames ++ [link.1])
        else ret packageNames)
     links packageNames w).2 =
  Normal (packageNames ++
            (filter (λ link, Is_true (isChangeSetLink link.1 link.2)) links).*1).
Proof.
  revert packageNames w. induction links as [|[text target] links IH];
    intros names w; cbn [forEachM fst snd].
  { unfold ret. cbn [snd]. by rewrite filter_nil, app_nil_r. }
  unfold bind at 1.
  destruct (isChangeSetLink text target) eqn:Hlink.
  - rewrite filter_cons_True by (cbn [fst snd]; rewrite Hlink; exact I).
    unfold bind at 1. cbn [log ret fst snd fmap list_fmap].
    rewrite IH, <-app_assoc. done.
  - rewrite filter_cons_False by (cbn [fst snd]; rewrite Hlink; intros []).
    unfold ret at 1. apply IH.
Qed.

Lemma index_prefix (search s : string) :
  String.prefix search s = true → String.index 0 search s = Some 0.
Proof.
  destruct s as [|c s]; simpl.
  - by destruct search.
  - intros Hp. change (String.prefix search (String c s) = true) in Hp.
    destruct search as [|d search]; [done|].
    simpl in Hp. simpl. by rewrite Hp.
Qed.

(** X14: [parseChangeSetPageContent] returns, in page order, the texts
    of the links whose [href] holds the detail-page path at a position
    after the first character, the links labelled Edit left out.  A
    link whose [href] begins with that path is not collected, and
    neither is a link without [href]. *)
Theorem parseChangeSetPageContent_collects
    (links_of : string → list (string * option string)) (html : string) (w : world) :
  (parseChangeSetPageContent links_of html w).2 =
    Normal (filter (λ link, Is_true (isChangeSetLink link.1 link.2))
                   (links_of html)).*1 ∧
  (∀ text target,
     isChangeSetLink text (Some target) = true →
     text ≠ "Edit" ∧
     ∃ n, 0 < n ∧
          String.substring n (String.length detailPage) target = detailPage) ∧
  (∀ text target,
     String.prefix detailPage target = true →
     isChangeSetLink text (Some target) = false) ∧
  (∀ text, isChangeSetLink text None = false).
Proof.
  split_and!.
  - unfold parseChangeSetPageContent, bind. simpl. by rewrite parse_links_fold.
  - intros text target. unfold isChangeSetLink, indexOf.
    rewrite !andb_true_iff, negb_true_iff, String.eqb_neq.
    intros [[_ Hpos] Hne]. split; [done|].
    destruct (String.index 0 detailPage target) as [n|] eqn:Hidx; [|done].
    apply Z.ltb_lt in Hpos. exists n. split; [lia|].
    by apply (String.index_correct1 0 n detailPage target).
  - intros text target Hp. unfold isChangeSetLink, indexOf.
    rewrite (index_prefix _ _ Hp). simpl. by rewrite andb_false_r.
  - done.
Qed.

(** ** Reading the manifests of the folders *)

Lemma only_logs_disk_lookup w w' file : only_logs w w' → disk w' !! file = disk w !! file.
Proof. by intros (_ & -> & _). Qed.

Lemma readPackageXML_folder_present parseString rootFolder acc folderName content w :
  disk w !! packageXmlPath rootFolder folderName = Some content →
  ∃ w', readPackageXML_folder parseString rootFolder acc folderName w =
          (w', Normal (acc ++ [(parseString content).2])) ∧ only_logs w w'.
Proof.
  intros Hfile. unfold readPackageXML_folder. unfold bind at 1. simpl.
  unfold bind at 1, readFileSync at 1. simpl. rewrite Hfile.
  unfold bind at 1. set (w1 := World _ _ _ _).
  assert (only_logs w w1) as Hw1.
  { apply (only_logs_log ("Reading package from: " +:+
                          packageXmlPath rootFolder folderName) None None w). }
  destruct ((parseString content).1) as [err|].
  - eexists. split; [reflexivity|]. eapply only_logs_trans; [exact Hw1|].
    apply (only_logs_log ("Error parsing XML! " +:+ err) (Some true) (Some "red") w1).
  - eexists. split; [reflexivity|done].
Qed.

Lemma readPackageXML_folders_present parseString rootFolder folders contents acc w :
  Forall2 (λ folderName content,
             disk w !! packageXmlPath rootFolder folderName = Some content)
          folders contents →
  ∃ w', forEachM (readPackageXML_folder parseString rootFolder) folders acc w =
          (w', Normal (acc ++ map (λ content, (parseString content).2) contents))
        ∧ only_logs w w'.
Proof.
  intros Hall. revert contents acc w Hall.
  induction folders as [|folderName folders IH]; intros contents acc w Hall.
  { apply Forall2_nil_inv_l in Hall as ->. exists w. simpl. rewrite app_nil_r.
    split; [done|apply only_logs_refl]. }
  apply Forall2_cons_inv_l in Hall as (content & contents' & Hfile & Hall & ->).
  destruct (readPackageXML_folder_present parseString rootFolder acc folderName
              content w Hfile) as (w1 & Hstep & Hw1).
  cbn [forEachM]. unfold bind at 1. rewrite Hstep.
  destruct (IH contents' (acc ++ [(parseString content).2]) w1) as (w' & Hrest & Hw').
  { eapply Forall2_impl; [exact Hall|]. intros f c Hf. simpl in *.
    by rewrite (only_logs_disk_lookup w w1). }
  exists w'. split; [|by eapply only_logs_trans].
  rewrite Hrest. simpl. by rewrite <-app_assoc.
Qed.

Lemma readPackageXML_folders_missing parseString rootFolder before missing after
    contents acc w :
  Forall2 (λ folderName content,
             disk w !! packageXmlPath rootFolder folderName = Some content)
          before contents →
  disk w !! packageXmlPath rootFolder missing = None →
  (forEachM (readPackageXML_folder parseString rootFolder)
     (before ++ missing :: after) acc w).2 =
    Throw ("Error: ENOENT: no such file or directory, open '"
             +:+ packageXmlPath rootFolder missing +:+ "'").
Proof.
  intros Hall Hmiss. revert acc w Hall Hmiss.
  revert contents. induction before as [|folderName before IH];
    intros contents acc w Hall Hmiss.
  - cbn [app forEachM]. unfold bind at 1, readPackageXML_folder at 1.
    unfold bind at 1. simpl. unfold bind at 1, readFileSync at 1. simpl.
    by rewrite Hmiss.
  - apply Forall2_cons_inv_l in Hall as (content & contents' & Hfile & Hall & ->).
    destruct (readPackageXML_folder_present parseString rootFolder acc folderName
                content w Hfile) as (w1 & Hstep & Hw1).
    cbn [app forEachM]. unfold bind at 1. rewrite Hstep.
    apply (IH contents').
    + eapply Forall2_impl; [exact Hall|]. intros f c Hf. simpl in *.
      by rewrite (only_logs_disk_lookup w w1).
    + by rewrite (only_logs_disk_lookup w w1).
Qed.

(** X15: when the folder listing succeeds without touching the state
    and every folder has its [package.xml], [readPackageXML] returns one
    entry per folder, in the order of the listing: what [parseString]
    made of that folder's file, also when it reported an error (then the
    entry is whatever result came with it, and the error is logged);
    the files on disk and the configuration are untouched. *)
Theorem readPackageXML_one_entry_per_folder
    (getSubFolders : string → M (list string))
    (parseString : string → option string * parsedFile)
    (rootFolder : string) (folders contents : list string) (w : world) :
  (∀ w0, getSubFolders rootFolder w0 = (w0, Normal folders)) →
  Forall2 (λ folderName content,
             disk w !! packageXmlPath rootFolder folderName = Some content)
          folders contents →
  ∃ w', readPackageXML getSubFolders parseString rootFolder w =
          (w', Normal (map (λ content, (parseString content).2) contents))
        ∧ only_logs w w'.
Proof.
  intros Hls Hall. unfold readPackageXML. unfold bind at 1. simpl.
  set (w1 := World _ _ _ _).
  assert (only_logs w w1) as Hw1.
  { apply (only_logs_log "Beginning reading of package.xml files" None None w). }
  unfold bind at 1. rewrite Hls. unfold bind at 1. simpl.
  set (w2 := World _ _ _ _).
  assert (only_logs w1 w2) as Hw2.
  { apply (only_logs_log ("Got folders: " +:+ String.concat "," folders) None None w1). }
  destruct (readPackageXML_folders_present parseString rootFolder folders contents
              [] w2) as (w' & Hrun & Hw').
  { eapply Forall2_impl; [exact Hall|]. intros f c Hf. simpl in *.
    rewrite (only_logs_disk_lookup w1 w2), (only_logs_disk_lookup w w1); done. }
  exists w'. split; [exact Hrun|].
  eapply only_logs_trans; [exact Hw1|]. by eapply only_logs_trans.
Qed.

(** X16: a folder without [package.xml] is not skipped: the read throws,
    the folders after it are not read, and [readPackageXML] ends in the
    ENOENT error of that file. *)
Theorem readPackageXML_missing_file_throws
    (getSubFolders : string → M (list string))
    (parseString : string → option string * parsedFile)
    (rootFolder : string) (before : list string) (missing : string)
    (after contents : list string) (w : world) :
  (∀ w0, getSubFolders rootFolder w0 = (w0, Normal (before ++ missing :: after))) →
  Forall2 (λ folderName content,
             disk w !! packageXmlPath rootFolder folderName = Some content)
          before contents →
  disk w !! packageXmlPath rootFolder missing = None →
  (readPackageXML getSubFolders parseString rootFolder w).2 =
    Throw ("Error: ENOENT: no such file or directory, open '"
             +:+ packageXmlPath rootFolder missing +:+ "'").
Proof.
  intros Hls Hall Hmiss. unfold readPackageXML. unfold bind at 1. simpl.
  set (w1 := World _ _ _ _).
  assert (only_logs w w1) as Hw1.
  { apply (only_logs_log "Beginning reading of package.xml files" None None w). }
  unfold bind at 1. rewrite Hls. unfold bind at 1. simpl.
  set (w2 := World _ _ _ _).
  assert (only_logs w1 w2) as Hw2.
  { apply (only_logs_log ("Got folders: " +:+
             String.concat "," (before ++ missing :: after)) None None w1). }
  apply (readPackageXML_folders_missing parseString rootFolder before missing after
           contents).
  - eapply Forall2_impl; [exact Hall|]. intros f c Hf. simpl in *.
    rewrite (only_logs_disk_lookup w1 w2), (only_logs_disk_lookup w w1); done.
  - rewrite (only_logs_disk_lookup w1 w2), (only_logs_disk_lookup w w1); done.
Qed.

(** X15 on two folders that have their manifests. *)
Lemma readPackageXML_one_entry_per_folder_witness :
  (readPackageXML (λ _, ret ["CS1"; "CS3"]) sample_parseString "packages"
     (initial_world sample_disk)).2 = Normal [manifest_A; manifest_B].
Proof.
  destruct (readPackageXML_one_entry_per_folder (λ _, ret ["CS1"; "CS3"])
              sample_parseString "packages" ["CS1"; "CS3"] ["A"; "B"]
              (initial_world sample_disk)) as (w' & -> & _).
  - done.
  - repeat constructor.
  - reflexivity.
Defined.

(** X16 on a listing whose second folder has no manifest. *)
Lemma readPackageXML_missing_file_throws_witness :
  (readPackageXML (λ _, ret ["CS1"; "CS2"; "CS3"]) sample_parseString "packages"
     (initial_world sample_disk)).2 =
    Throw ("Error: ENOENT: no such file or directory, open '"
             +:+ packageXmlPath "packages" "CS2" +:+ "'").
Proof.
  apply (readPackageXML_missing_file_throws (λ _, ret ["CS1"; "CS2"; "CS3"])
           sample_parseString "packages" ["CS1"] "CS2" ["CS3"] ["A"]
           (initial_world sample_disk)).
  - done.
  - repeat constructor.
  - reflexivity.
Defined.

(** ** The configuration file has no effect *)

Lemma init_config_outcome JSON_parse w :
  init_config JSON_parse w =
    match disk w !! configFileName with
    | None => (w, Throw ("Error: ENOENT: no such file or directory, open '"
                          +:+ configFileName +:+ "'"))
    | Some text =>
        match JSON_parse text with
        | None => (w, Throw "SyntaxError: Unexpected token in JSON")
        | Some _ => (w, Normal ())
        end
    end.
Proof.
  unfold init_config, bind, loadConfig, bind, readJSONFromFile.
  destruct (disk w !! configFileName) as [text|]; [|done].
  destruct (JSON_parse text); [|done]. simpl.
  unfold set_config, spread_merge, spread. simpl.
  rewrite (left_id_L ∅ (∪)). by destruct w.
Qed.

(** X17: the settings of [config.json] never reach [writeFiles].  When
    the file is missing or does not parse, lines 59-60 throw and the
    state is as it was.  When it parses, whatever it holds, lines 59-60
    return and leave the whole state as it was at the start, built-in
    configuration included; a call of [writeFiles] in that state that
    returns has written, into [packages\__mergedPackage], the XML of the
    package with version 50, and the configuration is still the built-in
    one. *)
Theorem config_file_never_reaches_writeFiles (JSON_parse : string → option json)
    (env : externals) (files : gmap string string)
    (a : list (string * string)) (v : json) (tys : list typeEntry) :
  let start := initial_world files in
  let objectData := mkPackage a (JNum 50) (sortTypes (engineOrder env) tys) in
  (files !! configFileName ≫= JSON_parse = None →
   ∃ e, init_config JSON_parse start = (start, Throw e)) ∧
  (∀ parsed, files !! configFileName ≫= JSON_parse = Some parsed →
     init_config JSON_parse start = (start, Normal ()) ∧
     ∀ w', writeFiles env (mkPackage a v tys) "package" start = (w', Normal ()) →
       disk w' !! "packages\__mergedPackage\package.xml" =
         Some (buildObject env objectData) ∧
       config w' = defaultConfig).
Proof.
  intros start objectData. split.
  - intros Hnone. rewrite init_config_outcome. simpl.
    destruct (files !! configFileName) as [text|]; [|by eexists].
    simpl in Hnone. rewrite Hnone. by eexists.
  - intros parsed Hsome. split.
    + rewrite init_config_outcome. simpl.
      destruct (files !! configFileName) as [text|]; [|done].
      simpl in Hsome. by rewrite Hsome.
    + intros w' Hrun.
      by apply (writeFiles_merged_manifest env a v tys "package" start).
Qed.
